(** * Express: trust-proxy aware request fields, settings and view rendering

    A shallow embedding of [lib/request.js], [lib/utils.js],
    [lib/application.js] and [lib/view.js], and the properties of the
    design document that concern them (C1 to C10), followed in each part
    by further properties of the code (X1 to X30).

    Conventions of the embedding.
    - A JavaScript string is a [string]: a sequence of 8-bit code units.
      Node decodes header bytes as Latin-1, so every header value is such a
      sequence; for other strings (setting keys, view names) the model is
      restricted to code units below 256.
    - [indexOf] and [substring] work on [Z] as in the source, [-1] included.
    - Code that can throw returns an [outcome]. *)

From Stdlib Require Import ZArith QArith Ascii String List Bool Lia.
From stdpp Require Import base option gmap strings list fin_maps.

Local Open Scope string_scope.
Local Open Scope Z_scope.

(* ===================================================================== *)
(** * JavaScript values and string primitives *)
(* ===================================================================== *)

Module JS.

(** ** Exceptions and the error monad *)

Inductive exn : Type :=
| TypeError (msg : string)
| Error (msg : string)
| Raised (tag : string).   (* any other thrown value, named by a tag *)

Inductive outcome (A : Type) : Type :=
| Ret (a : A)
| Throw (e : exn).
Arguments Ret {A} a.
Arguments Throw {A} e.

Definition bind {A B} (m : outcome A) (k : A -> outcome B) : outcome B :=
  match m with
  | Ret a => k a
  | Throw e => Throw e
  end.

Declare Scope js_scope.
Delimit Scope js_scope with js.
Notation "'let*' x ':=' m 'in' k" := (bind m (fun x => k))
  (at level 10, x name, m at level 100, k at level 200) : js_scope.

(** ** Numbers

    A JavaScript number is an IEEE double.  Every finite double is a
    rational, and [<] on doubles compares the real values, so a finite
    number is embedded as a [Q]; [-0] and [+0] are both [Fin 0]. *)

Inductive jsnum : Type :=
| NaN
| PInf
| NInf
| Fin (q : Q).

Definition of_Z (z : Z) : jsnum := Fin (inject_Z z).

(** [a < b] of the language: false as soon as one side is [NaN]. *)
Definition num_lt (a b : jsnum) : bool :=
  match a, b with
  | NaN, _ | _, NaN => false
  | _, NInf => false
  | PInf, _ => false
  | NInf, _ => true
  | Fin _, PInf => true
  | Fin x, Fin y => match (x ?= y)%Q with Lt => true | _ => false end
  end.

(** ** Values *)

(** A trust function [(addr, i) => bool]; [addr] is the socket's
    [remoteAddress], which is [undefined] once the socket is destroyed. *)
Definition trust_fn : Type := option string -> nat -> bool.

Inductive fn : Type :=
| FTrust (f : trust_fn)      (* a function used as trust policy *)
| FOpaque (name : string).   (* any other function, known by name only *)

Inductive jsval : Type :=
| VUndefined
| VNull
| VBool (b : bool)
| VNum (n : jsnum)
| VStr (s : string)
| VArr (l : list string)     (* an array of strings *)
| VFun (f : fn)
| VObj (tag : string).       (* any other object *)

(** ToBoolean *)
Definition truthy (v : jsval) : bool :=
  match v with
  | VUndefined | VNull => false
  | VBool b => b
  | VNum NaN => false
  | VNum (Fin q) => negb (Qeq_bool q 0)
  | VNum _ => true
  | VStr s => negb (String.eqb s "")
  | VArr _ | VFun _ | VObj _ => true
  end.

Inductive jstype : Type :=
| TUndefined | TObject | TBoolean | TNumber | TString | TFunction.

Definition typeof (v : jsval) : jstype :=
  match v with
  | VUndefined => TUndefined
  | VNull => TObject
  | VBool _ => TBoolean
  | VNum _ => TNumber
  | VStr _ => TString
  | VArr _ => TObject
  | VFun _ => TFunction
  | VObj _ => TObject
  end.

(** A property read that yields a string or [undefined], tested for
    truthiness, as in [x || y] and [!x]. *)
Definition truthy_str (o : option string) : bool :=
  match o with
  | Some s => negb (String.eqb s "")
  | None => false
  end.

(** [a || b] on string-or-undefined operands. *)
Definition or_else (a b : option string) : option string :=
  if truthy_str a then a else b.

(** ** Strings *)

Definition len (s : string) : Z := Z.of_nat (String.length s).

Fixpoint sdrop (n : nat) (s : string) : string :=
  match n, s with
  | O, _ => s
  | S n', String _ r => sdrop n' r
  | S _, EmptyString => EmptyString
  end.

Fixpoint stake (n : nat) (s : string) : string :=
  match n, s with
  | S n', String c r => String c (stake n' r)
  | _, _ => EmptyString
  end.

(** Clamp an index argument into [0 .. len s]. *)
Definition clamp (s : string) (i : Z) : Z := Z.min (Z.max i 0) (len s).

(** [s[0] === c] *)
Definition starts_with (s : string) (c : ascii) : bool :=
  match s with
  | String x _ => Ascii.eqb x c
  | EmptyString => false
  end.

(** First position of [c] in [s], counted from [pos]; [-1] when absent. *)
Fixpoint index_from (c : ascii) (s : string) (pos : Z) : Z :=
  match s with
  | EmptyString => -1
  | String x r => if Ascii.eqb x c then pos else index_from c r (pos + 1)
  end.

(** [s.indexOf(c, from)] for a one-character search string. *)
Definition indexOf (s : string) (c : ascii) (from : Z) : Z :=
  let k := clamp s from in
  index_from c (sdrop (Z.to_nat k) s) k.

(** [s.substring(a, b)] *)
Definition substring (s : string) (a b : Z) : string :=
  let a' := clamp s a in
  let b' := clamp s b in
  let lo := Z.min a' b' in
  let hi := Z.max a' b' in
  stake (Z.to_nat (hi - lo)) (sdrop (Z.to_nat lo) s).

(** White space and line terminators below 256: TAB, LF, VT, FF, CR,
    SPACE and NO-BREAK SPACE. *)
Definition is_space (c : ascii) : bool :=
  let n := nat_of_ascii c in
  ((9 <=? n)%nat && (n <=? 13)%nat) || (n =? 32)%nat || (n =? 160)%nat.

Fixpoint trimLeft (s : string) : string :=
  match s with
  | String c r => if is_space c then trimLeft r else s
  | EmptyString => EmptyString
  end.

Fixpoint trimRight (s : string) : string :=
  match s with
  | EmptyString => EmptyString
  | String c r =>
      match trimRight r with
      | EmptyString => if is_space c then EmptyString else String c EmptyString
      | r' => String c r'
      end
  end.

Definition trim (s : string) : string := trimRight (trimLeft s).

(** [toLowerCase] on code units below 256: A-Z and the upper-case
    letters of Latin-1 (0xC0-0xDE without the multiplication sign). *)
Definition lower_char (c : ascii) : ascii :=
  let n := nat_of_ascii c in
  if ((65 <=? n)%nat && (n <=? 90)%nat)
     || ((192 <=? n)%nat && (n <=? 222)%nat && negb (n =? 215)%nat)
  then ascii_of_nat (n + 32) else c.

Fixpoint toLowerCase (s : string) : string :=
  match s with
  | EmptyString => EmptyString
  | String c r => String (lower_char c) (toLowerCase r)
  end.

(** [s.split(c)] for a one-character separator. *)
Fixpoint split (c : ascii) (s : string) : list string :=
  match s with
  | EmptyString => [EmptyString]
  | String x r =>
      if Ascii.eqb x c then EmptyString :: split c r
      else match split c r with
           | t :: ts => String x t :: ts
           | [] => [String x EmptyString]
           end
  end.

(** [arr.slice(k)] for an integer [k]. *)
Definition slice {A} (l : list A) (k : Z) : list A :=
  let n := Z.of_nat (List.length l) in
  let from := if k <? 0 then Z.max (n + k) 0 else Z.min k n in
  skipn (Z.to_nat from) l.

(** *** Splitting on the regular expression [/ *, */] *)

(** The spaces at the start of [s] removed: what [/ */] consumes. *)
Fixpoint skip_spaces (s : string) : string :=
  match s with
  | String c r => if Ascii.eqb c " " then skip_spaces r else s
  | EmptyString => EmptyString
  end.

(** A match of [/ *, */] that starts at the first code unit of [s]: the
    rest of [s] after the match.  The greedy [ *] takes every space; with
    fewer spaces the next code unit is a space, not the comma. *)
Definition match_sep (s : string) : option string :=
  match skip_spaces s with
  | String c r => if Ascii.eqb c "," then Some (skip_spaces r) else None
  | EmptyString => None
  end.

(** The loop of [RegExp.prototype[Symbol.split]]: [cur] is [S[p..q)],
    [rest] is [S[q..)].  A match is never empty, so it always ends a
    piece.  Each step consumes at least one code unit of [rest]. *)
Fixpoint split_loop (fuel : nat) (cur rest : string) : list string :=
  match fuel with
  | O => [cur +:+ rest]
  | S fuel' =>
      match rest with
      | EmptyString => [cur]
      | String c r =>
          match match_sep rest with
          | Some rest' => cur :: split_loop fuel' "" rest'
          | None => split_loop fuel' (cur +:+ String c "") r
          end
      end
  end.

(** [s.split(/ *, */)] *)
Definition split_commas (s : string) : list string :=
  split_loop (String.length s) "" s.

(** *** Splitting on a regular expression [/ *c */]

    The same loop for any separator character [c] other than the
    space, as in [/ *; */] and [/ *= */]. *)

Definition match_sep_on (c : ascii) (s : string) : option string :=
  match skip_spaces s with
  | String x r => if Ascii.eqb x c then Some (skip_spaces r) else None
  | EmptyString => None
  end.

Fixpoint split_loop_on (c : ascii) (fuel : nat) (cur rest : string) : list string :=
  match fuel with
  | O => [cur +:+ rest]
  | S fuel' =>
      match rest with
      | EmptyString => [cur]
      | String x r =>
          match match_sep_on c rest with
          | Some rest' => cur :: split_loop_on c fuel' "" rest'
          | None => split_loop_on c fuel' (cur +:+ String x "") r
          end
      end
  end.

(** [s.split(/ *c */)] *)
Definition split_on (c : ascii) (s : string) : list string :=
  split_loop_on c (String.length s) "" s.

(** [s[i]]: the code unit at index [i] is [c]. *)
Definition char_at_is (s : string) (i : nat) (c : ascii) : bool :=
  match String.get i s with
  | Some x => Ascii.eqb x c
  | None => false
  end.

(** *** Reference notions used in the statements *)

(** The part of [s] before the first [c]; all of [s] when [c] is absent. *)
Fixpoint before (c : ascii) (s : string) : string :=
  match s with
  | EmptyString => EmptyString
  | String x r => if Ascii.eqb x c then EmptyString else String x (before c r)
  end.

(** The part of [s] after the first [c]; [None] when [c] is absent. *)
Fixpoint after (c : ascii) (s : string) : option string :=
  match s with
  | EmptyString => None
  | String x r => if Ascii.eqb x c then Some r else after c r
  end.

Fixpoint contains (c : ascii) (s : string) : bool :=
  match s with
  | EmptyString => false
  | String x r => Ascii.eqb x c || contains c r
  end.

(** [s] without the spaces at its end. *)
Fixpoint rstrip_spaces (s : string) : string :=
  match s with
  | EmptyString => EmptyString
  | String c r =>
      match rstrip_spaces r with
      | EmptyString => if Ascii.eqb c " " then EmptyString else String c EmptyString
      | r' => String c r'
      end
  end.

(** The pieces joined by the separator: the inverse of [split]. *)
Fixpoint join (c : ascii) (l : list string) : string :=
  match l with
  | [] => ""
  | [t] => t
  | t :: ts => t +:+ String c (join c ts)
  end.

(** ** Facts about the string primitives *)

Lemma len_nonneg s : 0 <= len s.
Proof. unfold len. lia. Qed.

Lemma len_String c s : len (String c s) = 1 + len s.
Proof. unfold len. cbn [String.length]. lia. Qed.

Lemma clamp_0 s : clamp s 0 = 0.
Proof. unfold clamp. pose proof (len_nonneg s). lia. Qed.

Lemma clamp_in s k : 0 <= k <= len s -> clamp s k = k.
Proof. unfold clamp. lia. Qed.

Lemma app_String c (p r : string) : String c p +:+ r = String c (p +:+ r).
Proof. reflexivity. Qed.

Lemma app_empty (r : string) : "" +:+ r = r.
Proof. reflexivity. Qed.

Lemma take_all s : stake (String.length s) s = s.
Proof. induction s; cbn; congruence. Qed.

Lemma take_app (p r : string) n :
  stake (String.length p + n) (p +:+ r) = p +:+ stake n r.
Proof.
  induction p as [|x p IH]; [reflexivity|].
  rewrite !app_String. cbn. now rewrite IH.
Qed.

Lemma drop_app (p r : string) : sdrop (String.length p) (p +:+ r) = r.
Proof.
  induction p as [|x p IH]; [reflexivity|]. rewrite app_String. exact IH.
Qed.

Lemma before_absent c s : contains c s = false -> before c s = s.
Proof.
  induction s as [|x r IH]; cbn; [reflexivity|].
  destruct (Ascii.eqb x c); cbn; [discriminate|]. intros H. now rewrite IH.
Qed.

Lemma before_no_sep c s : contains c (before c s) = false.
Proof.
  induction s as [|x r IH]; cbn; [reflexivity|].
  destruct (Ascii.eqb x c) eqn:E; cbn; [reflexivity|]. now rewrite E.
Qed.

Lemma after_contains c s : contains c s = true <-> exists r, after c s = Some r.
Proof.
  induction s as [|x r IH]; cbn.
  - split; [discriminate | intros [? ?]; discriminate].
  - destruct (Ascii.eqb x c); cbn; [split; eauto | exact IH].
Qed.

Lemma after_absent c s : contains c s = false <-> after c s = None.
Proof.
  induction s as [|x r IH]; cbn; [tauto|].
  destruct (Ascii.eqb x c); cbn; [split; discriminate | exact IH].
Qed.

(** A string that contains [c] splits around its first occurrence. *)
Lemma split_first c s r :
  after c s = Some r -> s = before c s +:+ String c r.
Proof.
  induction s as [|x t IH]; cbn; [discriminate|].
  destruct (Ascii.eqb x c) eqn:E.
  - intros [= ->]. apply Ascii.eqb_eq in E. now subst.
  - intros H. rewrite app_String. now rewrite <- IH.
Qed.

Lemma before_app c (p r : string) :
  contains c p = false -> before c (p +:+ String c r) = p.
Proof.
  induction p as [|x t IH]; [rewrite app_empty; cbn; now rewrite Ascii.eqb_refl|].
  rewrite app_String. cbn.
  destruct (Ascii.eqb x c); cbn; [discriminate|]. intros H. now rewrite IH.
Qed.

Lemma after_app c (p r : string) :
  contains c p = false -> after c (p +:+ String c r) = Some r.
Proof.
  induction p as [|x t IH]; [rewrite app_empty; cbn; now rewrite Ascii.eqb_refl|].
  rewrite app_String. cbn.
  destruct (Ascii.eqb x c); cbn; [discriminate|]. exact IH.
Qed.

Lemma index_from_spec c s pos :
  index_from c s pos = if contains c s then pos + len (before c s) else -1.
Proof.
  revert pos. induction s as [|x r IH]; intros pos; cbn [index_from contains before].
  - reflexivity.
  - destruct (Ascii.eqb x c); cbn [orb].
    + unfold len; cbn. lia.
    + rewrite IH. destruct (contains c r); [rewrite len_String; lia | reflexivity].
Qed.

Lemma indexOf_0 s c :
  indexOf s c 0 = if contains c s then len (before c s) else -1.
Proof.
  unfold indexOf. rewrite clamp_0. change (sdrop (Z.to_nat 0) s) with s.
  rewrite index_from_spec. destruct (contains c s); [lia | reflexivity].
Qed.

Lemma substring_0 s k :
  0 <= k <= len s -> substring s 0 k = stake (Z.to_nat k) s.
Proof.
  intros H. unfold substring. rewrite clamp_0, (clamp_in s k) by exact H.
  replace (Z.min 0 k) with 0 by lia. replace (Z.max 0 k - 0) with k by lia.
  reflexivity.
Qed.

Lemma len_before_le c s : len (before c s) <= len s.
Proof.
  induction s as [|x r IH]; cbn [before]; [lia|].
  destruct (Ascii.eqb x c); rewrite ?len_String; unfold len in *; cbn; lia.
Qed.

Lemma take_before c s : stake (String.length (before c s)) s = before c s.
Proof.
  induction s as [|x r IH]; cbn; [reflexivity|].
  destruct (Ascii.eqb x c); cbn; [reflexivity | now rewrite IH].
Qed.

(** [s.substring(0, s.indexOf(c))] when [c] occurs, [s] otherwise: the
    part of [s] before the first [c]. *)
Lemma first_token s c :
  (if negb (indexOf s c 0 =? -1) then substring s 0 (indexOf s c 0) else s)
  = before c s.
Proof.
  rewrite indexOf_0. destruct (contains c s) eqn:E.
  - pose proof (len_nonneg (before c s)). pose proof (len_before_le c s).
    destruct (len (before c s) =? -1) eqn:E1; [lia|]. cbn [negb].
    rewrite substring_0 by lia. unfold len. rewrite Nat2Z.id. apply take_before.
  - cbn. symmetry. now apply before_absent.
Qed.

Lemma first_token_trim s c :
  (if negb (indexOf s c 0 =? -1) then trim (substring s 0 (indexOf s c 0))
   else trim s) = trim (before c s).
Proof.
  pose proof (first_token s c) as H.
  destruct (negb (indexOf s c 0 =? -1)); [rewrite H | rewrite <- H]; reflexivity.
Qed.

Lemma lower_char_idem c : lower_char (lower_char c) = lower_char c.
Proof.
  destruct c as [[] [] [] [] [] [] [] []]; vm_compute; reflexivity.
Qed.

Lemma toLowerCase_idem s : toLowerCase (toLowerCase s) = toLowerCase s.
Proof. induction s; cbn; [reflexivity|]. now rewrite lower_char_idem, IHs. Qed.


Lemma len_app (p r : string) : len (p +:+ r) = len p + len r.
Proof.
  induction p as [|x p IH]; [rewrite app_empty; unfold len; cbn; lia|].
  rewrite app_String, !len_String, IH. lia.
Qed.

Lemma indexOf_app (p r : string) c :
  indexOf (p +:+ r) c (len p)
  = if contains c r then len p + len (before c r) else -1.
Proof.
  unfold indexOf. pose proof (len_nonneg p). pose proof (len_nonneg r).
  rewrite clamp_in by (rewrite len_app; lia).
  unfold len at 1. rewrite Nat2Z.id, drop_app. apply index_from_spec.
Qed.

Lemma substring_app (p r : string) k :
  0 <= k <= len r ->
  substring (p +:+ r) 0 (len p + k) = p +:+ stake (Z.to_nat k) r.
Proof.
  intros H. pose proof (len_nonneg p).
  rewrite substring_0 by (rewrite len_app; lia).
  replace (Z.to_nat (len p + k)) with (String.length p + Z.to_nat k)%nat
    by (unfold len; lia).
  apply take_app.
Qed.

Lemma contains_indexOf s c :
  negb (indexOf s c 0 =? -1) = contains c s.
Proof.
  rewrite indexOf_0. destruct (contains c s); [|reflexivity].
  pose proof (len_nonneg (before c s)).
  destruct (len (before c s) =? -1) eqn:E; [lia | reflexivity].
Qed.

Lemma substring_before s c :
  contains c s = true -> substring s 0 (indexOf s c 0) = before c s.
Proof.
  intros H. pose proof (first_token s c) as F.
  rewrite contains_indexOf, H in F. exact F.
Qed.





Lemma toLowerCase_not_empty s : s <> "" -> toLowerCase s <> "".
Proof. destruct s; cbn; congruence. Qed.

Lemma skip_spaces_length s :
  (String.length (skip_spaces s) <= String.length s)%nat.
Proof.
  induction s as [|c r IH]; cbn; [lia|].
  destruct (Ascii.eqb c " "); cbn; lia.
Qed.

Lemma skip_spaces_no_comma s :
  contains "," s = false -> contains "," (skip_spaces s) = false.
Proof.
  induction s as [|c r IH]; cbn; [reflexivity|].
  destruct (Ascii.eqb c ",") eqn:E; cbn; [discriminate|].
  intros H. destruct (Ascii.eqb c " "); [now apply IH | cbn; now rewrite E].
Qed.

Lemma match_sep_shorter s r :
  match_sep s = Some r -> (String.length r < String.length s)%nat.
Proof.
  unfold match_sep. pose proof (skip_spaces_length s) as H.
  destruct (skip_spaces s) as [|c t]; [discriminate|].
  destruct (Ascii.eqb c ","); [|discriminate]. intros [= <-].
  pose proof (skip_spaces_length t). cbn in H. lia.
Qed.

Lemma match_sep_no_comma s : contains "," s = false -> match_sep s = None.
Proof.
  intros H. apply skip_spaces_no_comma in H. unfold match_sep.
  destruct (skip_spaces s) as [|c t]; [reflexivity|].
  cbn in H. now destruct (Ascii.eqb c ",").
Qed.

Lemma match_sep_comma r : exists r', match_sep (String "," r) = Some r'.
Proof. unfold match_sep. cbn. eauto. Qed.

Lemma app_assoc_char (cur : string) c (r : string) :
  (cur +:+ String c "") +:+ r = cur +:+ String c r.
Proof.
  induction cur as [|x cur IH]; [reflexivity|].
  rewrite !app_String. now rewrite IH.
Qed.

Lemma app_empty_r (s : string) : s +:+ "" = s.
Proof. induction s as [|x s IH]; [reflexivity|]. rewrite app_String. now rewrite IH. Qed.

(** The loop does not depend on the fuel once it covers [rest]. *)
Lemma split_loop_fuel fuel cur rest :
  (String.length rest <= fuel)%nat ->
  split_loop fuel cur rest = split_loop (String.length rest) cur rest.
Proof.
  revert cur rest.
  induction fuel as [fuel IH] using lt_wf_ind. intros cur rest Hle.
  destruct rest as [|c r].
  - destruct fuel; cbn; [reflexivity | now rewrite app_empty_r].
  - destruct fuel as [|fuel']; [cbn in Hle; lia|].
    cbn [split_loop String.length].
    destruct (match_sep (String c r)) as [r'|] eqn:E.
    + apply match_sep_shorter in E. cbn in E, Hle.
      rewrite (IH fuel') by lia.
      rewrite (IH (String.length r)) by lia. reflexivity.
    + cbn in Hle. apply IH; lia.
Qed.

Lemma split_loop_no_comma fuel cur rest :
  (String.length rest <= fuel)%nat ->
  contains "," rest = false ->
  split_loop fuel cur rest = [cur +:+ rest].
Proof.
  revert cur rest. induction fuel as [|fuel IH]; intros cur rest Hle Hc.
  - reflexivity.
  - destruct rest as [|c r]; [cbn; now rewrite app_empty_r|].
    cbn [split_loop]. rewrite (match_sep_no_comma _ Hc).
    cbn in Hc, Hle. destruct (Ascii.eqb c ","); [discriminate|].
    rewrite IH by (cbn in *; auto; lia). now rewrite app_assoc_char.
Qed.

Lemma contains_app c (a b : string) :
  contains c (a +:+ b) = contains c a || contains c b.
Proof.
  induction a as [|x a IH]; [reflexivity|].
  rewrite app_String. cbn. rewrite IH. now rewrite orb_assoc.
Qed.

Lemma split_loop_pieces fuel cur rest :
  (String.length rest <= fuel)%nat ->
  contains "," cur = false ->
  Forall (fun t => contains "," t = false) (split_loop fuel cur rest).
Proof.
  revert cur rest.
  induction fuel as [fuel IH] using lt_wf_ind. intros cur rest Hle Hc.
  destruct fuel as [|fuel'].
  - destruct rest; [|cbn in Hle; lia]. cbn. rewrite app_empty_r.
    now repeat constructor.
  - destruct rest as [|c r]; [cbn; now repeat constructor|].
    cbn [split_loop]. destruct (match_sep (String c r)) as [r'|] eqn:E.
    + constructor; [exact Hc|]. apply match_sep_shorter in E.
      cbn in E, Hle. apply IH; [lia | lia | reflexivity].
    + cbn in Hle. apply IH; [lia | lia |].
      rewrite contains_app, Hc. cbn.
      destruct (Ascii.eqb c ",") eqn:Ec; [|reflexivity].
      apply Ascii.eqb_eq in Ec. subst c.
      destruct (match_sep_comma r) as [r' Hr]. congruence.
Qed.

Lemma match_sep_space r : match_sep (String " " r) = match_sep r.
Proof. reflexivity. Qed.

Lemma match_sep_some s r' :
  match_sep s = Some r' ->
  rstrip_spaces (before "," s) = ""
  /\ exists r1, after "," s = Some r1 /\ r' = skip_spaces r1.
Proof.
  induction s as [|c t IH]; [discriminate|].
  destruct (Ascii.eqb_spec c " ") as [-> | Hsp].
  - rewrite match_sep_space. intros H. destruct (IH H) as (Hb & r1 & Ha & Hr).
    cbn. rewrite Hb. cbn. eauto.
  - unfold match_sep. cbn [skip_spaces].
    destruct (Ascii.eqb c " ") eqn:E; [apply Ascii.eqb_eq in E; contradiction|].
    cbn [before after]. destruct (Ascii.eqb c ","); [|discriminate].
    intros [= <-]. cbn. eauto.
Qed.

Lemma match_sep_complete s r1 :
  rstrip_spaces (before "," s) = "" -> after "," s = Some r1 ->
  match_sep s = Some (skip_spaces r1).
Proof.
  induction s as [|c t IH]; [discriminate|].
  cbn [before after]. destruct (Ascii.eqb c ",") eqn:Ec.
  - intros _ [= ->]. apply Ascii.eqb_eq in Ec. subst c. reflexivity.
  - cbn [rstrip_spaces]. intros Hb Ha.
    destruct (rstrip_spaces (before "," t)) eqn:Er; [|discriminate].
    destruct (Ascii.eqb_spec c " ") as [-> | Hsp]; [|discriminate].
    rewrite match_sep_space. now apply IH.
Qed.

Lemma rstrip_keeps_head c t r :
  match_sep (String c t) = None -> after "," t = Some r ->
  rstrip_spaces (String c (before "," t)) = String c (rstrip_spaces (before "," t)).
Proof.
  intros Hn Ha. cbn [rstrip_spaces].
  destruct (rstrip_spaces (before "," t)) eqn:Er; [|reflexivity].
  destruct (Ascii.eqb_spec c " ") as [-> | Hsp]; [|reflexivity].
  rewrite match_sep_space in Hn.
  rewrite (match_sep_complete t r Er Ha) in Hn. discriminate.
Qed.

Lemma match_sep_none_head c t : match_sep (String c t) = None -> Ascii.eqb c "," = false.
Proof.
  destruct (Ascii.eqb_spec c ",") as [-> | H]; [|reflexivity].
  unfold match_sep. cbn. discriminate.
Qed.

Lemma split_loop_unfold fuel cur rest :
  (String.length rest <= fuel)%nat ->
  split_loop fuel cur rest =
  match after "," rest with
  | None => [cur +:+ rest]
  | Some r =>
      (cur +:+ rstrip_spaces (before "," rest)) :: split_commas (skip_spaces r)
  end.
Proof.
  revert fuel cur. induction rest as [|c t IH]; intros fuel cur Hle.
  - destruct fuel; cbn; [reflexivity | now rewrite app_empty_r].
  - destruct fuel as [|fuel]; [cbn in Hle; lia|]. cbn in Hle.
    cbn [split_loop]. destruct (match_sep (String c t)) as [r'|] eqn:E.
    + pose proof (match_sep_shorter _ _ E) as Hlt. cbn in Hlt.
      destruct (match_sep_some _ _ E) as (Hb & r1 & Ha & ->).
      rewrite Ha, Hb, app_empty_r. f_equal.
      unfold split_commas. apply split_loop_fuel. lia.
    + pose proof (match_sep_none_head _ _ E) as Hc.
      rewrite IH by lia. cbn [after before]. rewrite Hc.
      destruct (after "," t) as [r|] eqn:Ha.
      * rewrite (rstrip_keeps_head c t r E Ha). now rewrite app_assoc_char.
      * now rewrite app_assoc_char.
Qed.

Lemma split_commas_unfold s :
  split_commas s =
  match after "," s with
  | None => [s]
  | Some r => rstrip_spaces (before "," s) :: split_commas (skip_spaces r)
  end.
Proof.
  unfold split_commas at 1. rewrite split_loop_unfold by lia.
  destruct (after "," s); reflexivity.
Qed.

(** *** The split on [/ *c */] *)

Lemma match_sep_on_comma s : match_sep_on "," s = match_sep s.
Proof. reflexivity. Qed.

Lemma split_loop_on_comma fuel cur rest :
  split_loop_on "," fuel cur rest = split_loop fuel cur rest.
Proof.
  revert cur rest. induction fuel as [|fuel IH]; intros cur rest; [reflexivity|].
  cbn [split_loop_on split_loop]. destruct rest as [|x r]; [reflexivity|].
  rewrite match_sep_on_comma. destruct (match_sep (String x r)); now rewrite IH.
Qed.

Lemma split_on_comma s : split_on "," s = split_commas s.
Proof. apply split_loop_on_comma. Qed.

Section SplitOn.
Variable c : ascii.
Hypothesis c_not_space : c <> " "%char.


Lemma skip_spaces_no_sep s :
  contains c s = false -> contains c (skip_spaces s) = false.
Proof.
  induction s as [|x r IH]; cbn; [reflexivity|].
  destruct (Ascii.eqb x c) eqn:E; cbn; [discriminate|].
  intros H. destruct (Ascii.eqb x " "); [now apply IH | cbn; now rewrite E].
Qed.

Lemma match_sep_on_absent s : contains c s = false -> match_sep_on c s = None.
Proof.
  intros H. apply skip_spaces_no_sep in H. unfold match_sep_on.
  destruct (skip_spaces s) as [|x t]; [reflexivity|].
  cbn in H. now destruct (Ascii.eqb x c).
Qed.


Lemma split_loop_on_absent fuel cur rest :
  (String.length rest <= fuel)%nat ->
  contains c rest = false ->
  split_loop_on c fuel cur rest = [cur +:+ rest].
Proof.
  revert cur rest. induction fuel as [|fuel IH]; intros cur rest Hle Hc.
  - reflexivity.
  - destruct rest as [|x r]; [cbn; now rewrite app_empty_r|].
    cbn [split_loop_on]. rewrite (match_sep_on_absent _ Hc).
    cbn in Hc, Hle. destruct (Ascii.eqb x c); [discriminate|].
    rewrite IH by (cbn in *; auto; lia). now rewrite app_assoc_char.
Qed.








End SplitOn.

End JS.

(* ===================================================================== *)
(** * lib/request.js *)
(* ===================================================================== *)

Module Request.
Import JS.
Local Open Scope js_scope.

(** The socket: [this.connection]. *)
Record connection : Type := {
  encrypted : bool;
  remoteAddress : option string
}.

(** What the getters read from [this.app]: the values of
    [this.app.get('trust proxy fn')], a function as [compileTrust] returns
    it, and of [this.app.get('subdomain offset')], an integer, at the time
    of the access. *)
Record app : Type := {
  trust_proxy_fn : trust_fn;
  subdomain_offset : Z
}.

(** [this.res]: the status code and the header accessor [res.get]. *)
Record response : Type := {
  statusCode : Z;
  res_get : string -> option string
}.

(** The request: [headers] holds the header fields Node parsed, lower-case
    names to values. *)
Record request : Type := {
  headers : gmap string string;
  conn : connection;
  method : string;
  req_app : app;
  res : response
}.

(** [req.get(name)], also [req.header(name)]. *)
Definition get (this : request) (name : jsval) : outcome (option string) :=
  if negb (truthy name) then
    Throw (TypeError "name argument is required to req.get")
  else
    match name with
    | VStr name =>
        let lc := toLowerCase name in
        if String.eqb lc "referer" || String.eqb lc "referrer" then
          Ret (or_else (headers this !! "referrer") (headers this !! "referer"))
        else
          Ret (headers this !! lc)
    | _ => (* typeof name !== 'string' *)
        Throw (TypeError "name must be a string to req.get")
    end.

Definition header := get.

(** [protocol] *)
Definition protocol (this : request) : outcome string :=
  let proto := if encrypted (conn this) then "https" else "http" in
  let trust := trust_proxy_fn (req_app this) in
  if negb (trust (remoteAddress (conn this)) 0%nat) then
    Ret proto
  else
    let* h := get this (VStr "X-Forwarded-Proto") in
    let header := match or_else h (Some proto) with
                  | Some x => x
                  | None => proto
                  end in
    let index := indexOf header "," 0 in
    Ret (if negb (index =? -1)
         then trim (substring header 0 index)
         else trim header).

(** [secure] *)
Definition secure (this : request) : outcome bool :=
  let* p := protocol this in Ret (String.eqb p "https").

(** [hostname]; [None] is [undefined]. *)
Definition hostname (this : request) : outcome (option string) :=
  let trust := trust_proxy_fn (req_app this) in
  let* host := get this (VStr "X-Forwarded-Host") in
  let* host :=
    if negb (truthy_str host) || negb (trust (remoteAddress (conn this)) 0%nat)
    then get this (VStr "Host")
    else
      match host with
      | Some h =>
          if negb (indexOf h "," 0 =? -1)
          then Ret (Some (trimRight (substring h 0 (indexOf h "," 0))))
          else Ret (Some h)
      | None => Ret None
      end in
  match host with
  | Some h =>
      if negb (truthy_str host) then Ret None
      else
        (* IPv6 literal support *)
        let offset := if starts_with h "["
                      then indexOf h "]" 0 + 1
                      else 0 in
        let index := indexOf h ":" offset in
        Ret (Some (if negb (index =? -1) then substring h 0 index else h))
  | None => Ret None
  end.

Section WithCollaborators.

(** [net.isIP]: 0, 4 or 6. *)
Variable isIP : string -> Z.

(** The [fresh] package: [fresh(reqHeaders, {etag, 'last-modified'})]. *)
Variable fresh_pkg : gmap string string -> option string -> option string -> bool.

(** [subdomains] *)
Definition subdomains (this : request) : outcome (list string) :=
  let* hostname := hostname this in
  match hostname with
  | Some h =>
      if negb (truthy_str hostname) then Ret []
      else
        let offset := subdomain_offset (req_app this) in
        let subdomains :=
          if isIP h =? 0 then rev (split "." h) else [h] in
        Ret (slice subdomains offset)
  | None => Ret []
  end.

(** [fresh] *)
Definition fresh (this : request) : bool :=
  let method := method this in
  let res := res this in
  let status := statusCode res in
  (* GET or HEAD for weak freshness validation only *)
  if negb (String.eqb "GET" method) && negb (String.eqb "HEAD" method) then false
  else
    (* 2xx or 304 as per rfc2616 14.26 *)
    if ((200 <=? status) && (status <? 300)) || (304 =? status) then
      fresh_pkg (headers this) (res_get res "ETag") (res_get res "Last-Modified")
    else false.

(** [stale] *)
Definition stale (this : request) : bool := negb (fresh this).

End WithCollaborators.

(** [xhr] *)
Definition xhr (this : request) : outcome bool :=
  let* h := get this (VStr "X-Requested-With") in
  let val := match or_else h (Some "") with
             | Some x => x
             | None => ""
             end in
  Ret (String.eqb (toLowerCase val) "xmlhttprequest").

Section WithProxyAddr.

(** [proxyaddr(req, trust)] and [proxyaddr.all(req, trust)] of the
    proxy-addr package: the addresses of the request, the socket address
    first; an address is [undefined] when the socket has none. *)
Variable proxyaddr : request -> trust_fn -> option string.
Variable proxyaddr_all : request -> trust_fn -> list (option string).

(** [ip] *)
Definition ip (this : request) : option string :=
  let trust := trust_proxy_fn (req_app this) in
  proxyaddr this trust.

(** [ips]; [addrs.reverse().pop()] reverses the array in place and
    removes its last element. *)
Definition ips (this : request) : list (option string) :=
  let trust := trust_proxy_fn (req_app this) in
  let addrs := proxyaddr_all this trust in
  (* reverse the order (to farthest -> closest) and remove socket address *)
  removelast (rev addrs).

End WithProxyAddr.

(** ** Reference notions and example requests *)

(** The protocol of the transport, the base value of [protocol]. *)
Definition base_protocol (this : request) : string :=
  if encrypted (conn this) then "https" else "http".

(** The trust function accepts the socket address at hop 0. *)
Definition peer_trusted (this : request) : bool :=
  trust_proxy_fn (req_app this) (remoteAddress (conn this)) 0%nat.

(** A host without its port: what follows the first colon is dropped,
    the colon searched after the closing bracket when the host starts
    with a bracketed literal. *)
Definition strip_port (h : string) : string :=
  match h with
  | String c r =>
      if Ascii.eqb c "[" then
        match after "]" r with
        | Some rest => String c (before "]" r) +:+ String "]" (before ":" rest)
        | None => before ":" h
        end
      else before ":" h
  | EmptyString => EmptyString
  end.

(** The host string [hostname] works on. *)
Definition chosen_host (this : request) : option string :=
  match headers this !! "x-forwarded-host" with
  | Some h =>
      if negb (String.eqb h "") && peer_trusted this
      then Some (if contains "," h then trimRight (before "," h) else h)
      else headers this !! "host"
  | None => headers this !! "host"
  end.

(** [protocol] in the words of the specification: a header that is
    present gives its first token, trimmed. *)
Definition protocol_as_claimed (this : request) : string :=
  if peer_trusted this then
    match headers this !! "x-forwarded-proto" with
    | Some h => trim (before "," h)
    | None => base_protocol this
    end
  else base_protocol this.

(** [hostname] in the words of the specification: a header
    X-Forwarded-Host that is present, behind a trusted peer, gives its
    first token, right-trimmed. *)
Definition hostname_as_claimed (this : request) : option string :=
  let chosen :=
    match headers this !! "x-forwarded-host" with
    | Some h => if peer_trusted this then Some (trimRight (before "," h))
                else headers this !! "host"
    | None => headers this !! "host"
    end in
  match chosen with
  | Some h => if String.eqb h "" then None else Some (strip_port h)
  | None => None
  end.

(** Example requests: the transport flag, a constant trust function,
    the subdomain offset and the headers. *)
Definition mk_request (enc trusted : bool) (offset : Z)
    (hs : list (string * string)) : request :=
  {| headers := list_to_map hs;
     conn := {| encrypted := enc; remoteAddress := Some "10.0.0.1" |};
     method := "GET";
     req_app := {| trust_proxy_fn := fun _ _ => trusted;
                   subdomain_offset := offset |};
     res := {| statusCode := 200; res_get := fun _ => None |} |}.

Definition req_untrusted_proto : request :=
  mk_request false false 2 [("x-forwarded-proto", "https")].
Definition req_trusted_proto : request :=
  mk_request false true 2 [("x-forwarded-proto", "https, http")].
Definition req_empty_proto : request :=
  mk_request true true 2 [("x-forwarded-proto", "")].
Definition req_trusted_plain : request :=
  mk_request true true 2 [("host", "example.com")].

(** NO-BREAK SPACE, a byte Node's parser keeps at the end of a header
    value and [trimRight] removes. *)
Definition nbsp : string := String (ascii_of_nat 160) "".

Definition req_host_port : request :=
  mk_request false false 2 [("host", "example.com:8080")].
Definition req_host_ipv6 : request :=
  mk_request false false 2 [("host", "[::1]:8080")].
Definition req_forwarded_hosts : request :=
  mk_request false true 2
    [("host", "proxy.local"); ("x-forwarded-host", "example.com:8080 , cdn.example.net")].
Definition req_empty_xfh : request :=
  mk_request false true 2 [("host", "a.com"); ("x-forwarded-host", "")].
Definition req_nbsp_xfh : request :=
  mk_request false true 2
    [("host", "a.com"); ("x-forwarded-host", "example.com" +:+ nbsp)].

(** What [hostname] returns for a chosen host. *)
Definition host_result (host : option string) : option string :=
  match host with
  | Some h => if String.eqb h "" then None else Some (strip_port h)
  | None => None
  end.

(** An instance of [net.isIP] for the examples: dotted-quad IPv4 only. *)
Definition is_digit (c : ascii) : bool :=
  let n := nat_of_ascii c in (48 <=? n)%nat && (n <=? 57)%nat.

Definition is_octet (s : string) : bool :=
  match s with
  | String a "" => is_digit a
  | String a (String b "") => is_digit a && is_digit b && negb (Ascii.eqb a "0")
  | String a (String b (String c "")) =>
      is_digit a && is_digit b && is_digit c
      && (Ascii.eqb a "1"
          || (Ascii.eqb a "2"
              && ((nat_of_ascii b <=? 52)%nat
                  || (Ascii.eqb b "5" && (nat_of_ascii c <=? 53)%nat))))
  | _ => false
  end.

Definition isIP_v4 (s : string) : Z :=
  match split "." s with
  | [a; b; c; d] => if is_octet a && is_octet b && is_octet c && is_octet d
                    then 4 else 0
  | _ => 0
  end.


Definition req_tobi (offset : Z) : request :=
  mk_request false false offset [("host", "tobi.ferrets.example.com")].

Definition req_no_host : request := mk_request false false 2 [].

(** A POST request, and a GET request whose response has status 404. *)
Definition req_post : request :=
  {| headers := ∅; conn := {| encrypted := false; remoteAddress := None |};
     method := "POST";
     req_app := {| trust_proxy_fn := fun _ _ => false; subdomain_offset := 2 |};
     res := {| statusCode := 200; res_get := fun _ => None |} |}.
Definition req_not_found : request :=
  {| headers := ∅; conn := {| encrypted := false; remoteAddress := None |};
     method := "GET";
     req_app := {| trust_proxy_fn := fun _ _ => false; subdomain_offset := 2 |};
     res := {| statusCode := 404; res_get := fun _ => None |} |}.


Definition req_referer : request :=
  mk_request false false 2 [("referer", "http://a.example/")].

(** ** Properties *)


Lemma get_xfp this :
  get this (VStr "X-Forwarded-Proto") = Ret (headers this !! "x-forwarded-proto").
Proof. reflexivity. Qed.

Lemma get_xfh this :
  get this (VStr "X-Forwarded-Host") = Ret (headers this !! "x-forwarded-host").
Proof. reflexivity. Qed.

Lemma get_host this : get this (VStr "Host") = Ret (headers this !! "host").
Proof. reflexivity. Qed.

Lemma strip_port_ok h :
  (let offset := if starts_with h "[" then indexOf h "]" 0 + 1 else 0 in
   let index := indexOf h ":" offset in
   if negb (index =? -1) then substring h 0 index else h) = strip_port h.
Proof.
  destruct h as [|c r]; [reflexivity|].
  cbn [starts_with strip_port]. destruct (Ascii.eqb c "[") eqn:Ec; cbv zeta.
  2: apply first_token.
  apply Ascii.eqb_eq in Ec. subst c.
  rewrite indexOf_0. cbn [contains before]. change (Ascii.eqb "[" "]") with false.
  cbn [orb]. destruct (after "]" r) as [rest|] eqn:Ea.
  - assert (Hc : contains "]" r = true) by (apply after_contains; eauto).
    rewrite Hc. pose proof (split_first _ _ _ Ea) as Hr.
    set (b := before "]" r) in *.
    set (P := String "[" (b +:+ "]")).
    assert (HP : String "[" r = P +:+ rest).
    { unfold P. rewrite app_String. f_equal. rewrite Hr at 1.
      clear. induction b as [|x b IH]; [reflexivity|].
      rewrite !app_String. now rewrite IH. }
    assert (HlP : len (String "[" b) + 1 = len P).
    { unfold P. rewrite !len_String, len_app. unfold len. cbn. lia. }
    rewrite HP, HlP, indexOf_app.
    assert (Hgoal : String "[" b +:+ String "]" (before ":" rest)
                    = P +:+ before ":" rest).
    { unfold P. rewrite !app_String. f_equal.
      clear. induction b as [|x b IH]; [reflexivity|].
      rewrite !app_String. now rewrite IH. }
    rewrite Hgoal.
    pose proof (len_nonneg P). pose proof (len_nonneg (before ":" rest)).
    pose proof (len_before_le ":" rest).
    destruct (contains ":" rest) eqn:Ecol.
    + destruct (len P + len (before ":" rest) =? -1) eqn:E1; [lia|]. cbn [negb].
      rewrite substring_app by lia. unfold len at 1. rewrite Nat2Z.id.
      now rewrite take_before.
    + cbn. now rewrite (before_absent _ _ Ecol).
  - assert (Hc : contains "]" r = false) by (now apply after_absent).
    rewrite Hc. change (-1 + 1) with 0. apply first_token.
Qed.

Lemma protocol_eq this :
  protocol this =
  Ret (if peer_trusted this then
         match headers this !! "x-forwarded-proto" with
         | Some h => if String.eqb h "" then base_protocol this
                     else trim (before "," h)
         | None => base_protocol this
         end
       else base_protocol this).
Proof.
  unfold protocol, peer_trusted, base_protocol.
  destruct (trust_proxy_fn _ _ _); cbn [negb]; [|reflexivity].
  rewrite get_xfp. cbn [bind]. f_equal.
  set (proto := if encrypted (conn this) then "https" else "http").
  assert (Hp : trim (before "," proto) = proto)
    by (unfold proto; destruct (encrypted (conn this)); reflexivity).
  destruct (headers this !! "x-forwarded-proto") as [h|]; unfold or_else;
    cbn [truthy_str].
  - destruct (String.eqb h ""); cbn [negb].
    + rewrite (first_token_trim proto). exact Hp.
    + apply first_token_trim.
  - rewrite (first_token_trim proto). exact Hp.
Qed.

Lemma hostname_eq this :
  hostname this =
  Ret (match chosen_host this with
       | Some h => if String.eqb h "" then None else Some (strip_port h)
       | None => None
       end).
Proof.
  unfold hostname, chosen_host, peer_trusted. rewrite get_xfh. cbn [bind].
  set (tr := trust_proxy_fn _ _ _).
  assert (Fin : forall host : option string,
    match host with
    | Some h =>
        if negb (truthy_str host) then Ret None
        else
          let offset := if starts_with h "[" then indexOf h "]" 0 + 1 else 0 in
          let index := indexOf h ":" offset in
          Ret (Some (if negb (index =? -1) then substring h 0 index else h))
    | None => Ret None
    end = Ret (match host with
               | Some h => if String.eqb h "" then None else Some (strip_port h)
               | None => None
               end)).
  { intros [h|]; [|reflexivity]. cbn [truthy_str].
    destruct (String.eqb h ""); cbn [negb]; [reflexivity|].
    cbv zeta. now rewrite <- strip_port_ok. }
  destruct (headers this !! "x-forwarded-host") as [h|]; cbn [truthy_str].
  - destruct (String.eqb h ""); cbn [negb orb andb].
    + rewrite get_host. cbn [bind]. apply Fin.
    + destruct tr; cbn [negb].
      * rewrite contains_indexOf. destruct (contains "," h) eqn:Ec.
        -- rewrite (substring_before _ _ Ec). exact (Fin (Some _)).
        -- exact (Fin (Some _)).
      * rewrite get_host. cbn [bind]. apply Fin.
  - cbn [negb orb]. rewrite get_host. cbn [bind]. apply Fin.
Qed.

Lemma strip_port_plain h :
  starts_with h "[" = false -> strip_port h = before ":" h.
Proof.
  destruct h as [|c r]; [reflexivity|]. cbn. now intros ->.
Qed.

Lemma strip_port_bracket inner rest :
  contains "]" inner = false ->
  strip_port (String "[" (inner +:+ String "]" rest))
  = String "[" (inner +:+ String "]" (before ":" rest)).
Proof.
  intros H. cbn [strip_port]. change (Ascii.eqb "[" "[") with true. cbv iota.
  rewrite (after_app _ _ _ H), (before_app _ _ _ H).
  rewrite app_String. f_equal.
Qed.

(** C1 as stated fails: behind a trusted peer, on an encrypted
    transport, a header X-Forwarded-Proto that is present with the empty
    value gives "https", not its (empty) first token. *)
Lemma protocol_claim_fails :
  peer_trusted req_empty_proto = true
  /\ headers req_empty_proto !! "x-forwarded-proto" = Some ""
  /\ protocol req_empty_proto = Ret "https"
  /\ protocol_as_claimed req_empty_proto = ""
  /\ protocol req_empty_proto <> Ret (protocol_as_claimed req_empty_proto).
Proof. repeat split; vm_compute; try reflexivity. discriminate. Qed.

(** C1, amended: the base value is "https" or "http" by the transport
    flag; an untrusted peer at hop 0 gives the base value whatever
    X-Forwarded-Proto holds; a trusted peer and a non-empty
    X-Forwarded-Proto give the first comma-delimited token of the header,
    trimmed; a trusted peer and an absent or empty header give the base
    value. *)
Theorem protocol_spec (this : request) :
  let base := if encrypted (conn this) then "https" else "http" in
  let xfp := headers this !! "x-forwarded-proto" in
  (peer_trusted this = false -> protocol this = Ret base)
  /\ (forall h, peer_trusted this = true -> xfp = Some h -> h <> "" ->
        protocol this = Ret (trim (before "," h)))
  /\ (peer_trusted this = true -> xfp = None \/ xfp = Some "" ->
        protocol this = Ret base).
Proof.
  cbv zeta. rewrite protocol_eq. unfold base_protocol.
  split; [|split].
  - now intros ->.
  - intros h -> -> Hh. destruct (String.eqb_spec h ""); [contradiction|reflexivity].
  - intros -> [-> | ->]; reflexivity.
Qed.

(** The two examples of C1: an untrusted peer with X-Forwarded-Proto:
    https gives "http"; a trusted peer with "https, http" gives "https". *)
Lemma protocol_spec_witness :
  protocol req_untrusted_proto = Ret "http"
  /\ protocol req_trusted_proto = Ret "https"
  /\ protocol req_trusted_plain = Ret "https".
Proof.
  split; [|split].
  - exact (proj1 (protocol_spec req_untrusted_proto) eq_refl).
  - refine (proj1 (proj2 (protocol_spec req_trusted_proto))
              "https, http" eq_refl eq_refl _).
    discriminate.
  - refine (proj2 (proj2 (protocol_spec req_trusted_plain)) eq_refl _).
    left. reflexivity.
Defined.

(** C2 as stated fails twice: an X-Forwarded-Host that is present but
    empty, behind a trusted peer, leaves the Host header in charge; and a
    value without a comma is not right-trimmed. *)
Lemma hostname_claim_fails :
  (hostname req_empty_xfh = Ret (Some "a.com")
   /\ hostname_as_claimed req_empty_xfh = None
   /\ hostname req_empty_xfh <> Ret (hostname_as_claimed req_empty_xfh))
  /\ (hostname req_nbsp_xfh = Ret (Some ("example.com" +:+ nbsp))
      /\ hostname_as_claimed req_nbsp_xfh = Some "example.com"
      /\ hostname req_nbsp_xfh <> Ret (hostname_as_claimed req_nbsp_xfh)).
Proof. repeat split; vm_compute; try reflexivity; discriminate. Qed.

(** C2, amended: the Host header is used when X-Forwarded-Host is
    absent or empty or the peer at hop 0 is untrusted; otherwise
    X-Forwarded-Host is used, cut before its first comma and right-trimmed
    when it has a comma, unchanged when it has none; an absent or empty
    host gives [undefined]; the port is stripped at the first colon, which
    is searched after the closing bracket of a leading bracketed literal. *)
Theorem hostname_spec (this : request) :
  let xfh := headers this !! "x-forwarded-host" in
  (xfh = None \/ xfh = Some "" \/ peer_trusted this = false ->
     hostname this = Ret (host_result (headers this !! "host")))
  /\ (forall h, xfh = Some h -> h <> "" -> peer_trusted this = true ->
        hostname this =
        Ret (host_result (Some (if contains "," h
                                then trimRight (before "," h) else h))))
  /\ (forall h, starts_with h "[" = false -> strip_port h = before ":" h)
  /\ (forall inner rest, contains "]" inner = false ->
        strip_port (String "[" (inner +:+ String "]" rest))
        = String "[" (inner +:+ String "]" (before ":" rest)))
  /\ (forall r, contains "]" r = false ->
        strip_port (String "[" r) = before ":" (String "[" r)).
Proof.
  cbv zeta. rewrite hostname_eq. unfold chosen_host, host_result.
  repeat split.
  - intros [-> | [-> | Ht]]; [reflexivity | reflexivity |].
    destruct (headers this !! "x-forwarded-host") as [h|]; [|reflexivity].
    now rewrite Ht, andb_false_r.
  - intros h -> Hh ->. destruct (String.eqb_spec h ""); [contradiction|].
    reflexivity.
  - apply strip_port_plain.
  - apply strip_port_bracket.
  - intros r Hr. apply after_absent in Hr. cbn [strip_port].
    change (Ascii.eqb "[" "[") with true. cbv iota. now rewrite Hr.
Qed.

(** The two examples of C2. *)
Lemma hostname_spec_witness :
  hostname req_host_port = Ret (Some "example.com")
  /\ hostname req_host_ipv6 = Ret (Some "[::1]")
  /\ hostname req_forwarded_hosts = Ret (Some "example.com").
Proof.
  split; [|split].
  - refine (proj1 (hostname_spec req_host_port) _). left. reflexivity.
  - refine (proj1 (hostname_spec req_host_ipv6) _). left. reflexivity.
  - refine (proj1 (proj2 (hostname_spec req_forwarded_hosts))
              "example.com:8080 , cdn.example.net" eq_refl _ eq_refl).
    discriminate.
Defined.




(** C8: [fresh] is false for a method other than GET and HEAD, and
    false for a status outside 200..299 that is not 304, whatever the
    evaluator would say; with both conditions met it is the evaluator's
    answer; [stale] is the negation of [fresh]. *)
Theorem fresh_spec (fresh_pkg : gmap string string -> option string -> option string -> bool)
    (this : request) :
  let status := statusCode (res this) in
  (method this <> "GET" -> method this <> "HEAD" -> fresh fresh_pkg this = false)
  /\ (~ (200 <= status < 300) -> status <> 304 -> fresh fresh_pkg this = false)
  /\ (method this = "GET" \/ method this = "HEAD" ->
      200 <= status < 300 \/ status = 304 ->
      fresh fresh_pkg this
      = fresh_pkg (headers this) (res_get (res this) "ETag")
                  (res_get (res this) "Last-Modified"))
  /\ stale fresh_pkg this = negb (fresh fresh_pkg this).
Proof.
  cbv zeta. unfold stale, fresh. split; [|split; [|split; [|reflexivity]]].
  - intros H1 H2.
    destruct (String.eqb_spec "GET" (method this)); [congruence|].
    destruct (String.eqb_spec "HEAD" (method this)); [congruence|]. reflexivity.
  - intros H1 H2.
    destruct (negb _ && negb _); [reflexivity|].
    destruct (Z.leb_spec 200 (statusCode (res this)));
      destruct (Z.ltb_spec (statusCode (res this)) 300);
      destruct (Z.eqb_spec 304 (statusCode (res this))); cbn; try reflexivity; lia.
  - intros Hm Hs.
    assert (negb (String.eqb "GET" (method this))
            && negb (String.eqb "HEAD" (method this)) = false) as ->.
    { destruct Hm as [-> | ->]; reflexivity. }
    destruct (Z.leb_spec 200 (statusCode (res this)));
      destruct (Z.ltb_spec (statusCode (res this)) 300);
      destruct (Z.eqb_spec 304 (statusCode (res this))); cbn; try reflexivity; lia.
Qed.

(** C8 on a GET request with status 200. *)
Lemma fresh_spec_witness :
  fresh (fun _ _ _ => true) (mk_request false false 2 []) = true
  /\ stale (fun _ _ _ => true) (mk_request false false 2 []) = false
  /\ fresh (fun _ _ _ => true) req_post = false
  /\ fresh (fun _ _ _ => true) req_not_found = false.
Proof.
  pose proof (fresh_spec (fun _ _ _ => true) (mk_request false false 2 []))
    as (_ & _ & H & Hs).
  split; [|split; [|split]].
  - apply H; [left; reflexivity | left; cbn; lia].
  - rewrite Hs. rewrite H; [reflexivity | left; reflexivity | left; cbn; lia].
  - apply (proj1 (fresh_spec (fun _ _ _ => true) req_post)); discriminate.
  - apply (proj1 (proj2 (fresh_spec (fun _ _ _ => true) req_not_found)));
      cbn; lia.
Defined.



(** ** Further properties of the getters *)

(** X1: [secure] never throws.  Behind a peer that is not trusted it is the
    transport flag, whatever X-Forwarded-Proto says; behind a trusted
    peer a non-empty X-Forwarded-Proto decides: [secure] holds exactly
    when its first token, trimmed, is the string "https" (compared as
    it is, so not for "HTTPS"); with the header absent or empty it is
    the transport flag again. *)
Theorem secure_spec (this : request) :
  (exists b, secure this = Ret b)
  /\ (peer_trusted this = false -> secure this = Ret (encrypted (conn this)))
  /\ (forall h, peer_trusted this = true ->
        headers this !! "x-forwarded-proto" = Some h -> h <> "" ->
        secure this = Ret (String.eqb (trim (before "," h)) "https"))
  /\ (peer_trusted this = true ->
      truthy_str (headers this !! "x-forwarded-proto") = false ->
      secure this = Ret (encrypted (conn this))).
Proof.
  unfold secure. rewrite protocol_eq. cbn [bind].
  assert (Hb : String.eqb (base_protocol this) "https" = encrypted (conn this)).
  { unfold base_protocol. now destruct (encrypted (conn this)). }
  split; [eauto|]. split; [|split].
  - intros ->. now rewrite Hb.
  - intros h -> -> Hne. destruct (String.eqb_spec h ""); [contradiction|].
    reflexivity.
  - intros ->. destruct (headers this !! "x-forwarded-proto") as [h|];
      cbn [truthy_str]; [|now rewrite Hb].
    destruct (String.eqb h ""); [now rewrite Hb | discriminate].
Qed.

(** X1, an instance: [secure] on a plain socket: a header from a peer that is not
    trusted is ignored, one from a trusted peer is followed. *)
Lemma secure_spec_witness :
  secure req_untrusted_proto = Ret false
  /\ secure req_trusted_proto = Ret true.
Proof.
  split.
  - exact (proj1 (proj2 (secure_spec req_untrusted_proto)) eq_refl).
  - refine (proj1 (proj2 (proj2 (secure_spec req_trusted_proto)))
              "https, http" eq_refl eq_refl _).
    discriminate.
Defined.

(** X2: [xhr] never throws, and it holds exactly when the header
    X-Requested-With is present with a value that is "xmlhttprequest"
    up to letter case. *)
Theorem xhr_spec (this : request) :
  (exists b, xhr this = Ret b)
  /\ (xhr this = Ret true
      <-> exists v, headers this !! "x-requested-with" = Some v
                    /\ toLowerCase v = "xmlhttprequest").
Proof.
  unfold xhr.
  assert (Hg : get this (VStr "X-Requested-With")
               = Ret (headers this !! "x-requested-with")) by reflexivity.
  rewrite Hg. cbn [bind]. split; [eauto|].
  destruct (headers this !! "x-requested-with") as [v|]; unfold or_else;
    cbn [truthy_str].
  - destruct (String.eqb_spec v "") as [-> | Hv]; cbn [negb].
    + split; [discriminate|]. intros (v & [= <-] & H). discriminate.
    + split.
      * intros [= H]. apply String.eqb_eq in H. eauto.
      * intros (v' & [= <-] & H). rewrite H. reflexivity.
  - split; [discriminate|]. intros (v & H & _). discriminate.
Qed.

(** X3: The names "Referer" and "Referrer", in any letter case, are
    interchangeable in [req.get]: both give the header "referrer" when
    it is present and not empty, and the header "referer" otherwise. *)
Theorem get_referrer_alias (this : request) (s : string) :
  toLowerCase s = "referer" \/ toLowerCase s = "referrer" ->
  get this (VStr s)
  = Ret (match headers this !! "referrer" with
         | Some v => if String.eqb v "" then headers this !! "referer" else Some v
         | None => headers this !! "referer"
         end)
  /\ get this (VStr s) = get this (VStr "Referer")
  /\ get this (VStr s) = get this (VStr "Referrer").
Proof.
  intros H.
  assert (Hs : s <> "") by (intros ->; destruct H; discriminate).
  assert (E : get this (VStr s)
              = Ret (or_else (headers this !! "referrer") (headers this !! "referer"))).
  { unfold get. cbn [truthy]. destruct (String.eqb_spec s ""); [contradiction|].
    cbn [negb]. destruct H as [-> | ->]; reflexivity. }
  split; [|split; exact E].
  rewrite E. unfold or_else.
  destruct (headers this !! "referrer") as [v|]; cbn [truthy_str]; [|reflexivity].
  now destruct (String.eqb v "").
Qed.

(** X3, an instance: the alias on a request that carries the header "referer". *)
Lemma get_referrer_alias_witness :
  get req_referer (VStr "REFERRER") = Ret (Some "http://a.example/").
Proof.
  exact (proj1 (get_referrer_alias req_referer "REFERRER" (or_intror eq_refl))).
Defined.

Lemma before_prefix c s :
  exists rest, s = before c s +:+ rest /\ (rest = "" \/ starts_with rest c = true).
Proof.
  destruct (after c s) as [r|] eqn:E.
  - exists (String c r). split; [now apply split_first|].
    right. cbn. apply Ascii.eqb_refl.
  - apply after_absent in E. rewrite (before_absent _ _ E).
    exists "". split; [now rewrite app_empty_r | now left].
Qed.

Lemma strip_port_prefix h :
  exists rest, h = strip_port h +:+ rest
               /\ (rest = "" \/ starts_with rest ":" = true).
Proof.
  destruct h as [|c r]; [exists ""; split; [reflexivity | now left]|].
  cbn [strip_port]. destruct (Ascii.eqb_spec c "[") as [-> | Hc].
  2: apply before_prefix.
  destruct (after "]" r) as [rest|] eqn:Ea; [|apply before_prefix].
  destruct (before_prefix ":" rest) as (tl & Htl & Hst).
  exists tl. split; [|exact Hst].
  rewrite (split_first _ _ _ Ea) at 1. rewrite !app_String. f_equal.
  rewrite Htl at 1. clear.
  induction (before "]" r) as [|x b IH]; [reflexivity|].
  rewrite !app_String. now rewrite IH.
Qed.

(** X4: What [hostname] returns is the chosen host (the Host header, or the
    first entry of X-Forwarded-Host behind a trusted peer) without a
    suffix that is empty or starts with a colon: nothing else is ever
    removed or changed.  For a host that does not start with a bracket
    the result contains no colon. *)
Theorem hostname_without_port (this : request) (r : string) :
  hostname this = Ret (Some r) ->
  exists h rest,
    chosen_host this = Some h /\ h <> ""
    /\ h = r +:+ rest
    /\ (rest = "" \/ starts_with rest ":" = true)
    /\ (starts_with h "[" = false -> contains ":" r = false).
Proof.
  rewrite hostname_eq. destruct (chosen_host this) as [h|]; [|discriminate].
  destruct (String.eqb_spec h "") as [-> | Hne]; [discriminate|].
  intros [= <-]. destruct (strip_port_prefix h) as (rest & Hh & Hr).
  exists h, rest. split; [reflexivity|]. split; [exact Hne|].
  split; [exact Hh|]. split; [exact Hr|].
  intros Hb. rewrite (strip_port_plain _ Hb). apply before_no_sep.
Qed.

(** X4, an instance: the host "example.com:8080" loses ":8080". *)
Lemma hostname_without_port_witness :
  exists h rest,
    chosen_host req_host_port = Some h /\ h <> ""
    /\ h = "example.com" +:+ rest
    /\ (rest = "" \/ starts_with rest ":" = true)
    /\ (starts_with h "[" = false -> contains ":" "example.com" = false).
Proof. exact (hostname_without_port req_host_port "example.com" eq_refl). Defined.

Lemma slice_rev_firstn {A} (l : list A) (k : Z) :
  let n := Z.of_nat (List.length l) in
  slice (rev l) k
  = rev (firstn (Z.to_nat (if k <? 0 then Z.min (- k) n else n - Z.min k n)) l).
Proof.
  cbv zeta. unfold slice. rewrite length_rev.
  set (n := Z.of_nat (List.length l)).
  rewrite skipn_rev. f_equal. f_equal.
  destruct (k <? 0) eqn:E; [apply Z.ltb_lt in E | apply Z.ltb_ge in E]; lia.
Qed.

(** X5: For a hostname that is not an IP address, [subdomains] is a prefix
    of the hostname's labels in reverse order, for every integer
    "subdomain offset": with an offset [k >= 0] the labels but the last
    [k], none when [k] is the number of labels or more; with a negative
    offset [-j] the first [j] labels (all of them when there are fewer),
    since [slice] counts a negative argument from the end. *)
Theorem subdomains_labels (isIP : string -> Z) (this : request) (h : string) :
  hostname this = Ret (Some h) -> h <> "" -> isIP h = 0 ->
  let labels := split "." h in
  let n := Z.of_nat (List.length labels) in
  let k := subdomain_offset (req_app this) in
  subdomains isIP this
  = Ret (rev (firstn (Z.to_nat (if k <? 0 then Z.min (- k) n else n - Z.min k n))
                labels)).
Proof.
  intros Hh Hne Hip. cbv zeta. unfold subdomains. rewrite Hh. cbn [bind truthy_str].
  destruct (String.eqb_spec h ""); [contradiction|]. cbn [negb].
  rewrite Hip. cbn [Z.eqb]. f_equal. apply slice_rev_firstn.
Qed.

(** X5, an instance: with the offset -1 the first label alone is returned. *)
Lemma subdomains_labels_witness :
  subdomains isIP_v4 (req_tobi (-1)) = Ret ["tobi"].
Proof.
  refine (subdomains_labels isIP_v4 (req_tobi (-1)) "tobi.ferrets.example.com"
            eq_refl _ eq_refl).
  discriminate.
Defined.

(** X6: [ips] is what [proxyaddr.all] gives without its first entry, the
    socket address, in reverse order: the farthest address first; it is
    empty when the socket address is the only entry. *)
Theorem ips_spec (proxyaddr_all : request -> trust_fn -> list (option string))
    (this : request) (socket : option string) (rest : list (option string)) :
  proxyaddr_all this (trust_proxy_fn (req_app this)) = socket :: rest ->
  ips proxyaddr_all this = rev rest
  /\ List.length (ips proxyaddr_all this) = List.length rest
  /\ (rest = [] -> ips proxyaddr_all this = []).
Proof.
  intros H. unfold ips. rewrite H. cbn [rev].
  rewrite removelast_last. split; [reflexivity|]. split.
  - apply length_rev.
  - now intros ->.
Qed.

(** X6, an instance: two forwarded addresses behind the socket address. *)
Lemma ips_spec_witness :
  ips (fun _ _ => [Some "10.0.0.1"; Some "10.0.0.2"; Some "203.0.113.7"]) req_no_host
  = [Some "203.0.113.7"; Some "10.0.0.2"].
Proof.
  exact (proj1 (ips_spec
                  (fun _ _ => [Some "10.0.0.1"; Some "10.0.0.2"; Some "203.0.113.7"])
                  req_no_host (Some "10.0.0.1")
                  [Some "10.0.0.2"; Some "203.0.113.7"] eq_refl)).
Defined.

End Request.

(* ===================================================================== *)
(** * lib/utils.js *)
(* ===================================================================== *)

Module Utils.
Import JS.
Local Open Scope js_scope.

(** [compileETag]: the generator, or [undefined] for [false].  The thrown
    message ends with the value, which the model leaves out. *)
Definition compileETag (val : jsval) : outcome jsval :=
  match val with
  | VFun f => Ret (VFun f)
  | VBool true => Ret (VFun (FOpaque "wetag"))
  | VBool false => Ret VUndefined
  | VStr s =>
      if String.eqb s "strong" then Ret (VFun (FOpaque "etag"))
      else if String.eqb s "weak" then Ret (VFun (FOpaque "wetag"))
      else Throw (TypeError "unknown value for etag function: ")
  | _ => Throw (TypeError "unknown value for etag function: ")
  end.

(** [compileQueryParser] *)
Definition compileQueryParser (val : jsval) : outcome jsval :=
  match val with
  | VFun f => Ret (VFun f)
  | VBool true => Ret (VFun (FOpaque "querystring.parse"))
  | VBool false => Ret (VFun (FOpaque "newObject"))
  | VStr s =>
      if String.eqb s "extended" then Ret (VFun (FOpaque "parseExtendedQueryString"))
      else if String.eqb s "simple" then Ret (VFun (FOpaque "querystring.parse"))
      else Throw (TypeError "unknown value for query parser function: ")
  | _ => Throw (TypeError "unknown value for query parser function: ")
  end.

Section WithProxyAddr.

(** [proxyaddr.compile] of the proxy-addr package: the trust function of
    a list of addresses and ranges; it throws on an argument or an
    address it does not accept. *)
Variable proxyaddr_compile : jsval -> outcome trust_fn.

(** [if (typeof val === 'string') val = val.split(/ *, */)] *)
Definition as_list (val : jsval) : jsval :=
  match val with
  | VStr s => VArr (split_commas s)
  | _ => val
  end.

(** [val || []] *)
Definition or_empty (val : jsval) : jsval :=
  if truthy val then val else VArr [].

(** [compileTrust] *)
Definition compileTrust (val : jsval) : outcome fn :=
  match val with
  | VFun f => Ret f
  | VBool true =>
      (* Support plain true/false *)
      Ret (FTrust (fun _ _ => true))
  | VNum n =>
      (* Support trusting hop count *)
      Ret (FTrust (fun a i => num_lt (of_Z (Z.of_nat i)) n))
  | _ =>
      (* Support comma-separated values *)
      let val := as_list val in
      let* f := proxyaddr_compile (or_empty val) in
      Ret (FTrust f)
  end.

End WithProxyAddr.

(** The backslash. *)
Definition backslash : ascii := ascii_of_nat 92.

(** [isAbsolute]: [true], or [undefined] when no test applies. *)
Definition isAbsolute (path : string) : jsval :=
  if char_at_is path 0 "/" then VBool true
  else if char_at_is path 1 ":"
          && (char_at_is path 2 backslash || char_at_is path 2 "/")
  then VBool true   (* Windows device path *)
  else if String.eqb (String backslash (String backslash "")) (substring path 0 2)
  then VBool true   (* Microsoft Azure absolute path *)
  else VUndefined.

(** The object [acceptParams] returns; a parameter written without [=]
    has the value [undefined]. *)
Record accept : Type := {
  a_value : option string;
  a_quality : jsnum;
  a_params : gmap string (option string);
  a_originalIndex : jsval
}.

(** What [normalizeType] returns: the object of [acceptParams], or
    [{value: mime.lookup(type), params: {}}]. *)
Inductive normalized : Type :=
| Parsed (a : accept)
| Looked (value : jsval).

(** A property key made of [pms[0]]. *)
Definition key_of (o : option string) : string :=
  match o with
  | Some k => k
  | None => "undefined"
  end.

Section WithParsers.

(** [parseFloat], applied to a string or to [undefined]. *)
Variable parseFloat : option string -> jsnum.

(** [mime.lookup] of the send package. *)
Variable mime_lookup : string -> jsval.

(** The body of the loop of [acceptParams] for one of [parts[1..]]. *)
Definition accept_part (ret : accept) (part : string) : accept :=
  let pms := split_on "=" part in
  if match head pms with
     | Some k => String.eqb "q" k
     | None => false
     end
  then {| a_value := a_value ret; a_quality := parseFloat (pms !! 1%nat);
          a_params := a_params ret; a_originalIndex := a_originalIndex ret |}
  else {| a_value := a_value ret; a_quality := a_quality ret;
          a_params := <[key_of (head pms) := pms !! 1%nat]> (a_params ret);
          a_originalIndex := a_originalIndex ret |}.

(** [acceptParams] *)
Definition acceptParams (str : string) (index : jsval) : accept :=
  let parts := split_on ";" str in
  let ret := {| a_value := head parts; a_quality := of_Z 1; a_params := ∅;
                a_originalIndex := index |} in
  fold_left accept_part (tail parts) ret.

(** [normalizeType] *)
Definition normalizeType (type : string) : normalized :=
  if negb (indexOf type "/" 0 =? -1)
  then Parsed (acceptParams type VUndefined)
  else Looked (mime_lookup type).

(** [normalizeTypes] *)
Definition normalizeTypes (types : list string) : list normalized :=
  map normalizeType types.

End WithParsers.

(** ** Reference notions of the statements *)

(** The reading of "hop index [i] is below [n]". *)
Definition hop_below (i : nat) (n : jsnum) : Prop :=
  match n with
  | Fin q => (inject_Z (Z.of_nat i) < q)%Q
  | PInf => True
  | NInf | NaN => False
  end.

(** ** Properties *)

(** C3 as stated fails: addresses separated by white space alone stay
    one entry, where a comma separates them into two. *)
Lemma compileTrust_split_claim_fails :
  split_commas "10.0.0.1 10.0.0.2" = ["10.0.0.1 10.0.0.2"]
  /\ split_commas "10.0.0.1, 10.0.0.2" = ["10.0.0.1"; "10.0.0.2"]
  /\ as_list (VStr "10.0.0.1 10.0.0.2") = VArr ["10.0.0.1 10.0.0.2"]
  /\ List.length (split_commas "10.0.0.1 10.0.0.2") = 1%nat.
Proof. repeat split; vm_compute; reflexivity. Qed.

(** C3, amended: a string is split by [/ *, */] and handed on as the
    list: the first entry is the part before the first comma without the
    spaces at its end, the others are the entries of what follows that
    comma and the spaces after it; no entry contains a comma; a string
    without a comma is a single entry, white space included. *)
Theorem compileTrust_string (proxyaddr_compile : jsval -> outcome trust_fn)
    (s : string) :
  compileTrust proxyaddr_compile (VStr s)
  = compileTrust proxyaddr_compile (VArr (split_commas s))
  /\ compileTrust proxyaddr_compile (VStr s)
     = bind (proxyaddr_compile (VArr (split_commas s))) (fun f => Ret (FTrust f))
  /\ split_commas s
     = match after "," s with
       | None => [s]
       | Some r => rstrip_spaces (before "," s) :: split_commas (skip_spaces r)
       end
  /\ Forall (fun t => contains "," t = false) (split_commas s)
  /\ (contains "," s = false -> split_commas s = [s]).
Proof.
  split; [reflexivity|]. split; [reflexivity|]. split; [|split].
  - apply split_commas_unfold.
  - apply split_loop_pieces; [lia | reflexivity].
  - intros H. unfold split_commas. now rewrite split_loop_no_comma.
Qed.

(** C3, amended, on two addresses separated by a space. *)
Lemma compileTrust_string_witness :
  split_commas "10.0.0.1 10.0.0.2" = ["10.0.0.1 10.0.0.2"].
Proof.
  exact (proj2 (proj2 (proj2 (proj2
           (compileTrust_string (fun _ => Throw (Error "unused"))
              "10.0.0.1 10.0.0.2")))) eq_refl).
Defined.

(** C5: for a number [n], [compileTrust] returns a function that is
    true at hop [i], for every address, exactly when [i < n]; for [n = 2]
    that is hops 0 and 1. *)
Theorem compileTrust_number (proxyaddr_compile : jsval -> outcome trust_fn)
    (n : jsnum) :
  (exists f,
     compileTrust proxyaddr_compile (VNum n) = Ret (FTrust f)
     /\ forall addr i, f addr i = true <-> hop_below i n)
  /\ (exists f,
        compileTrust proxyaddr_compile (VNum (of_Z 2)) = Ret (FTrust f)
        /\ forall addr i, f addr i = (i <? 2)%nat).
Proof.
  assert (H : forall m i,
             num_lt (of_Z (Z.of_nat i)) m = true <-> hop_below i m).
  { intros m i. destruct m as [| | |q]; cbn; try (split; [discriminate | tauto]);
      try tauto.
    unfold Qlt, Qcompare. cbn.
    destruct (Z.compare_spec (Z.of_nat i * QDen q) (Qnum q * 1));
      split; intros; try discriminate; try reflexivity; lia. }
  split.
  - eexists. split; [reflexivity|]. intros addr i. apply H.
  - eexists. split; [reflexivity|]. intros addr i. cbv beta.
    destruct (Nat.ltb_spec i 2) as [Hi | Hi].
    + apply H. cbn. unfold Qlt. cbn. lia.
    + destruct (num_lt (of_Z (Z.of_nat i)) (of_Z 2)) eqn:E; [|reflexivity].
      apply H in E. cbn in E. unfold Qlt in E. cbn in E. lia.
Qed.

(** ** [isAbsolute] *)

Lemma get_app_lt (p q : string) (i : nat) :
  (i < String.length p)%nat -> String.get i (p +:+ q) = String.get i p.
Proof.
  revert i. induction p as [|x p IH]; intros i Hi; [cbn in Hi; lia|].
  rewrite app_String. destruct i as [|i]; [reflexivity|].
  cbn [String.get]. apply IH. cbn in Hi. lia.
Qed.

Lemma char_at_is_length s i c :
  char_at_is s i c = true -> (i < String.length s)%nat.
Proof.
  unfold char_at_is. revert i. induction s as [|x s IH]; intros i; [now destruct i|].
  destruct i as [|i]; cbn; [lia|]. intros H. apply IH in H. lia.
Qed.

Lemma char_at_is_app p q i c :
  char_at_is p i c = true -> char_at_is (p +:+ q) i c = true.
Proof.
  intros H. pose proof (char_at_is_length _ _ _ H) as Hl.
  unfold char_at_is in *. now rewrite get_app_lt.
Qed.

Lemma substring_0_2 s :
  substring s 0 2 = stake 2 s.
Proof.
  unfold substring. rewrite clamp_0. unfold clamp.
  pose proof (len_nonneg s).
  destruct s as [|a [|b s]].
  - reflexivity.
  - reflexivity.
  - rewrite !len_String in *. pose proof (len_nonneg s).
    replace (Z.min (Z.max 2 0) (1 + (1 + len s))) with 2 by lia.
    reflexivity.
Qed.

(** X7: [isAbsolute] returns [true] or [undefined], never [false].  It
    looks at the first three code units only, so a path that looks
    absolute still does with anything appended; the empty string does
    not look absolute. *)
Theorem isAbsolute_spec (path : string) :
  (isAbsolute path = VBool true \/ isAbsolute path = VUndefined)
  /\ (forall path', stake 3 path' = stake 3 path ->
        isAbsolute path' = isAbsolute path)
  /\ (forall rest, isAbsolute path = VBool true ->
        isAbsolute (path +:+ rest) = VBool true)
  /\ isAbsolute "" = VUndefined.
Proof.
  split; [|split; [|split]].
  - unfold isAbsolute.
    destruct (char_at_is path 0 "/"); [now left|].
    destruct (char_at_is path 1 ":" && _); [now left|].
    destruct (String.eqb _ _); [now left | now right].
  - assert (H3 : forall p, isAbsolute p = isAbsolute (stake 3 p)).
    { intros p. unfold isAbsolute. rewrite !substring_0_2.
      destruct p as [|a [|b [|c p]]]; reflexivity. }
    intros path' H. now rewrite (H3 path'), (H3 path), H.
  - intros rest. unfold isAbsolute. rewrite !substring_0_2.
    destruct (char_at_is path 0 "/") eqn:E0.
    { now rewrite (char_at_is_app _ rest _ _ E0). }
    destruct (char_at_is (path +:+ rest) 0 "/"); [reflexivity|].
    destruct (char_at_is path 1 ":" && _) eqn:E1.
    { apply andb_true_iff in E1 as [Ea Eb].
      rewrite (char_at_is_app _ rest _ _ Ea).
      apply orb_true_iff in Eb as [Eb | Eb];
        rewrite (char_at_is_app _ rest _ _ Eb); cbn; now rewrite ?orb_true_r. }
    destruct (char_at_is (path +:+ rest) 1 ":" && _); [reflexivity|].
    destruct (String.eqb_spec (String backslash (String backslash "")) (stake 2 path))
      as [E|]; [|discriminate].
    intros _. destruct path as [|a [|b p]]; cbn [stake] in E; try discriminate.
    rewrite !app_String. cbn [stake]. rewrite <- E. now rewrite String.eqb_refl.
  - reflexivity.
Qed.

(** X7, an instance: an absolute root stays absolute under a view name. *)
Lemma isAbsolute_spec_witness :
  isAbsolute ("/srv" +:+ "/views") = VBool true.
Proof.
  exact (proj1 (proj2 (proj2 (isAbsolute_spec "/srv"))) "/views" eq_refl).
Defined.

(** ** [acceptParams] and [normalizeType] *)



Lemma split_on_absent c s : contains c s = false -> split_on c s = [s].
Proof.
  intros H. unfold split_on. now rewrite split_loop_on_absent by (lia || exact H).
Qed.


Section AcceptFacts.
Variable parseFloat : option string -> jsnum.



End AcceptFacts.

Lemma acceptParams_plain (parseFloat : option string -> jsnum) str index :
  contains ";" str = false ->
  acceptParams parseFloat str index
  = {| a_value := Some str; a_quality := of_Z 1; a_params := ∅;
       a_originalIndex := index |}.
Proof.
  intros Hc. unfold acceptParams. rewrite (split_on_absent _ _ Hc). reflexivity.
Qed.




(** X9: [normalizeType] parses a type that contains a slash and looks up
    any other string with [mime.lookup], without parsing it, whatever it
    contains; a type with a slash and no semicolon comes back as it is,
    with quality 1 and no parameter.  [normalizeTypes] does this for each
    type, in order. *)
Theorem normalizeType_spec (parseFloat : option string -> jsnum)
    (mime_lookup : string -> jsval) (type : string) :
  (contains "/" type = true ->
     normalizeType parseFloat mime_lookup type
     = Parsed (acceptParams parseFloat type VUndefined))
  /\ (contains "/" type = true -> contains ";" type = false ->
        normalizeType parseFloat mime_lookup type
        = Parsed {| a_value := Some type; a_quality := of_Z 1; a_params := ∅;
                    a_originalIndex := VUndefined |})
  /\ (contains "/" type = false ->
        normalizeType parseFloat mime_lookup type = Looked (mime_lookup type))
  /\ (forall types i,
        normalizeTypes parseFloat mime_lookup types !! i
        = option_map (normalizeType parseFloat mime_lookup) (types !! i)).
Proof.
  unfold normalizeType. rewrite contains_indexOf. split; [|split; [|split]].
  - now intros ->.
  - intros -> Hs. f_equal.
    now apply acceptParams_plain.
  - now intros ->.
  - intros types i. unfold normalizeTypes. rewrite list_lookup_fmap.
    destruct (types !! i); reflexivity.
Qed.

(** X9, an instance: a full type and a short name. *)
Lemma normalizeType_spec_witness :
  normalizeType (fun _ => NaN) (fun t => VStr ("application/" +:+ t)) "text/html"
  = Parsed {| a_value := Some "text/html"; a_quality := of_Z 1; a_params := ∅;
              a_originalIndex := VUndefined |}
  /\ normalizeType (fun _ => NaN) (fun t => VStr ("application/" +:+ t)) "json"
     = Looked (VStr "application/json").
Proof.
  split.
  - exact (proj1 (proj2 (normalizeType_spec (fun _ => NaN)
                           (fun t => VStr ("application/" +:+ t)) "text/html"))
             eq_refl eq_refl).
  - exact (proj1 (proj2 (proj2 (normalizeType_spec (fun _ => NaN)
                                  (fun t => VStr ("application/" +:+ t)) "json")))
             eq_refl).
Defined.

(** ** [compileETag] and [compileQueryParser] *)

(** X10: The values the two compilers accept.  [compileETag] returns for a
    function, [true], [false], "strong" and "weak", and throws a
    TypeError for every other value; [true] means "weak", and [false]
    gives [undefined], the only result that is no function.
    [compileQueryParser] returns for a function, [true], [false],
    "extended" and "simple", and throws a TypeError for every other
    value; [true] means "simple", and the result is always a function,
    for [false] the one that returns an empty object. *)
Theorem compilers_accept (val : jsval) :
  ((exists fn, compileETag val = Ret fn)
   <-> typeof val = TFunction \/ val = VBool true \/ val = VBool false
       \/ val = VStr "strong" \/ val = VStr "weak")
  /\ (forall e, compileETag val = Throw e -> exists msg, e = TypeError msg)
  /\ compileETag (VBool true) = compileETag (VStr "weak")
  /\ (forall fn, compileETag val = Ret fn ->
        (fn = VUndefined <-> val = VBool false)
        /\ (val <> VBool false -> typeof fn = TFunction))
  /\ ((exists fn, compileQueryParser val = Ret fn)
      <-> typeof val = TFunction \/ val = VBool true \/ val = VBool false
          \/ val = VStr "extended" \/ val = VStr "simple")
  /\ (forall e, compileQueryParser val = Throw e -> exists msg, e = TypeError msg)
  /\ compileQueryParser (VBool true) = compileQueryParser (VStr "simple")
  /\ (forall fn, compileQueryParser val = Ret fn -> typeof fn = TFunction).
Proof.
  unfold compileETag, compileQueryParser.
  split; [|split; [|split; [|split; [|split; [|split; [|split]]]]]].
  - split.
    + intros [fn H]. destruct val as [| |[]| |s| | |]; try discriminate; auto.
      destruct (String.eqb_spec s "strong") as [-> | ?]; [auto 6|].
      destruct (String.eqb_spec s "weak") as [-> | ?]; [auto 6 | discriminate].
    + intros [H | [-> | [-> | [-> | ->]]]]; eauto.
      destruct val; try discriminate. eauto.
  - intros e. destruct val as [| |[]| |s| | |]; try discriminate;
      try (intros [= <-]; eauto).
    destruct (String.eqb s "strong"); [discriminate|].
    destruct (String.eqb s "weak"); [discriminate|]. intros [= <-]; eauto.
  - reflexivity.
  - intros fn. destruct val as [| |[]| |s| | |]; try discriminate.
    + intros [= <-]. split; [split; discriminate | reflexivity].
    + intros [= <-]. split; [split; reflexivity | congruence].
    + destruct (String.eqb s "strong");
        [intros [= <-]; split; [split; discriminate | reflexivity]|].
      destruct (String.eqb s "weak"); [|discriminate].
      intros [= <-]; split; [split; discriminate | reflexivity].
    + intros [= <-]. split; [split; discriminate | reflexivity].
  - split.
    + intros [fn H]. destruct val as [| |[]| |s| | |]; try discriminate; auto.
      destruct (String.eqb_spec s "extended") as [-> | ?]; [auto 6|].
      destruct (String.eqb_spec s "simple") as [-> | ?]; [auto 6 | discriminate].
    + intros [H | [-> | [-> | [-> | ->]]]]; eauto.
      destruct val; try discriminate. eauto.
  - intros e. destruct val as [| |[]| |s| | |]; try discriminate;
      try (intros [= <-]; eauto).
    destruct (String.eqb s "extended"); [discriminate|].
    destruct (String.eqb s "simple"); [discriminate|]. intros [= <-]; eauto.
  - reflexivity.
  - intros fn. destruct val as [| |[]| |s| | |]; try discriminate;
      try (intros [= <-]; reflexivity).
    destruct (String.eqb s "extended"); [intros [= <-]; reflexivity|].
    destruct (String.eqb s "simple"); [intros [= <-]; reflexivity | discriminate].
Qed.

End Utils.

(* ===================================================================== *)
(** * lib/application.js and lib/view.js *)
(* ===================================================================== *)

Module Application.
Import JS Utils.

(** ** Objects

    A property of a settings object: its value and whether it is
    writable.  Every property of the model is configurable; a property
    made by assignment is writable, one made by [Object.defineProperty]
    without [writable] is not.  The accessor [__proto__] of
    [Object.prototype] is outside the model: setting keys, view names and
    extensions are taken to differ from it. *)

Record prop : Type := { value : jsval; writable : bool }.

Definition trustProxyDefaultSymbol : string := "@@symbol:trust_proxy_default".

(** The data properties every plain object inherits from
    [Object.prototype]. *)
Definition object_prototype_names : list string :=
  ["constructor"; "hasOwnProperty"; "isPrototypeOf"; "propertyIsEnumerable";
   "toLocaleString"; "toString"; "valueOf"; "__defineGetter__";
   "__defineSetter__"; "__lookupGetter__"; "__lookupSetter__"].

Definition in_object_prototype (k : string) : bool :=
  existsb (String.eqb k) object_prototype_names.

Definition object_prototype (k : string) : option prop :=
  if in_object_prototype k
  then Some {| value := VFun (FOpaque k); writable := true |}
  else None.

(** ** Rendering: callbacks, engines and views *)

(** The arguments a render callback is called with: [callback(err)] or
    [callback(null, str)]. *)
Inductive cb_arg : Type :=
| CbErr (e : exn)
| CbOk (str : option string).

(** What the collaborators are seen to do. *)
Inductive event : Type :=
| EvStat (path : string)        (* fs.statSync(path) *)
| EvRequire (mod_name : string) (* require(mod) *)
| EvCallback (arg : cb_arg).    (* a callback was called *)

(** A computation that leaves a trace and returns or throws. *)
Definition R (A : Type) : Type := list event * outcome A.

Definition retR {A} (a : A) : R A := ([], Ret a).
Definition throwR {A} (e : exn) : R A := ([], Throw e).
Definition bindR {A B} (m : R A) (k : A -> R B) : R B :=
  match m with
  | (tr, Ret a) => let (tr', r) := k a in ((tr ++ tr')%list, r)
  | (tr, Throw e) => (tr, Throw e)
  end.

(** [try { body } catch (err) { handler(err) }] *)
Definition try_catch {A} (body : R A) (handler : exn -> R A) : R A :=
  match body with
  | (tr, Ret a) => (tr, Ret a)
  | (tr, Throw e) => let (tr', r) := handler e in ((tr ++ tr')%list, r)
  end.

Declare Scope r_scope.
Delimit Scope r_scope with r.
Notation "'let*' x ':=' m 'in' k" := (bindR m (fun x => k))
  (at level 10, x name, m at level 100, k at level 200) : r_scope.

Definition callback : Type := cb_arg -> R unit.

(** The options object of a render call: its own fields and, apart, the
    field [_locals]. *)
Record options : Type := {
  fields : gmap string jsval;
  o_locals : option (gmap string jsval)
}.

(** A template engine [(path, options, callback)]. *)
Definition engine_fn : Type := option string -> options -> callback -> R unit.

(** A [View] object. *)
Record view : Type := {
  v_defaultEngine : jsval;
  v_ext : jsval;
  v_name : string;
  v_root : jsval;
  v_engine : engine_fn;
  v_path : option string
}.

(** ** Applications

    The world holds a sub-application, the application it can be mounted
    under, and what that parent's own settings and engines inherit from
    (its ancestors, flattened).  [mounted] says that the prototype of the
    sub-application's settings and engines is the parent's: the objects
    are shared, not copied. *)

Inductive app_id : Type := Sub | Parent.

Record app_state : Type := {
  settings : gmap string prop;
  cache : gmap string view;
  engines : gmap string engine_fn;
  locals : gmap string jsval
}.

Record world : Type := {
  sub : app_state;
  parent : app_state;
  mounted : bool;
  anc_settings : gmap string prop;
  anc_engines : gmap string engine_fn
}.

Definition app (w : world) (who : app_id) : app_state :=
  match who with
  | Sub => sub w
  | Parent => parent w
  end.

Definition with_app (who : app_id) (a : app_state) (w : world) : world :=
  match who with
  | Sub => {| sub := a; parent := parent w; mounted := mounted w;
              anc_settings := anc_settings w; anc_engines := anc_engines w |}
  | Parent => {| sub := sub w; parent := a; mounted := mounted w;
                 anc_settings := anc_settings w; anc_engines := anc_engines w |}
  end.

Definition own (w : world) (who : app_id) : gmap string prop :=
  settings (app w who).

Definition with_own (who : app_id) (m : gmap string prop) (w : world) : world :=
  with_app who {| settings := m; cache := cache (app w who);
                  engines := engines (app w who);
                  locals := locals (app w who) |} w.

Definition or_prop (a b : option prop) : option prop :=
  match a with
  | Some p => Some p
  | None => b
  end.

(** The property [k] as seen from the settings of [who]: own properties
    first, then the prototype chain. *)
Definition get_prop (w : world) (who : app_id) (k : string) : option prop :=
  let above_parent := or_prop (anc_settings w !! k) (object_prototype k) in
  let from_parent := or_prop (settings (parent w) !! k) above_parent in
  match who with
  | Parent => from_parent
  | Sub => or_prop (settings (sub w) !! k)
             (if mounted w then from_parent else object_prototype k)
  end.

(** [this.settings[k]] *)
Definition get_value (w : world) (who : app_id) (k : string) : jsval :=
  match get_prop w who k with
  | Some p => value p
  | None => VUndefined
  end.

(** *** The state monad of the settings operations; the state after a
    throw is kept, since the caller can catch and go on. *)

Definition St (A : Type) : Type := world -> world * outcome A.

Definition ret {A} (a : A) : St A := fun w => (w, Ret a).
Definition lift {A} (o : outcome A) : St A := fun w => (w, o).
Definition bindS {A B} (m : St A) (k : A -> St B) : St B :=
  fun w => match m w with
           | (w', Ret a) => k a w'
           | (w', Throw e) => (w', Throw e)
           end.

Declare Scope st_scope.
Delimit Scope st_scope with st.
Notation "'let*' x ':=' m 'in' k" := (bindS m (fun x => k))
  (at level 10, x name, m at level 100, k at level 200) : st_scope.
Local Open Scope st_scope.

(** [this.settings[k] = v] in strict mode. *)
Definition assign (who : app_id) (k : string) (v : jsval) : St unit :=
  fun w =>
    let stored :=
      with_own who (<[k := {| value := v; writable := true |}]> (own w who)) w in
    match get_prop w who k with
    | Some p =>
        if writable p then (stored, Ret tt)
        else (w, Throw (TypeError "Cannot assign to read only property"))
    | None => (stored, Ret tt)
    end.

(** [Object.defineProperty(this.settings, k, {configurable: true, value: v})] *)
Definition defineProperty (who : app_id) (k : string) (v : jsval) : St unit :=
  fun w =>
    let wr := match own w who !! k with
              | Some p => writable p
              | None => false
              end in
    (with_own who (<[k := {| value := v; writable := wr |}]> (own w who)) w,
     Ret tt).

(** [delete this.settings[k]] *)
Definition delete_own (who : app_id) (k : string) (w : world) : world :=
  with_own who (delete k (own w who)) w.

Definition is_true (v : jsval) : bool :=
  match v with
  | VBool true => true
  | _ => false
  end.

Definition is_function (v : jsval) : bool :=
  match typeof v with
  | TFunction => true
  | _ => false
  end.

Section WithProxyAddr.

Variable proxyaddr_compile : jsval -> outcome trust_fn.

(** [app.set(setting, val)] with two arguments.  The calls
    [this.set("... fn", compiled)] of the source run the same function
    with a key that triggers nothing: they are the assignment alone. *)
Definition set (who : app_id) (setting : string) (val : jsval) : St unit :=
  let* _ := assign who setting val in
  if String.eqb setting "etag" then
    let* fn := lift (compileETag val) in
    assign who "etag fn" fn
  else if String.eqb setting "query parser" then
    let* fn := lift (compileQueryParser val) in
    assign who "query parser fn" fn
  else if String.eqb setting "trust proxy" then
    let* fn := lift (compileTrust proxyaddr_compile val) in
    let* _ := assign who "trust proxy fn" (VFun fn) in
    (* trust proxy inherit back-compat *)
    defineProperty who trustProxyDefaultSymbol (VBool false)
  else ret tt.

(** [app.set(setting)] with one argument, and [app.get(setting)]. *)
Definition get (w : world) (who : app_id) (setting : string) : jsval :=
  get_value w who setting.

Definition enabled (w : world) (who : app_id) (setting : string) : bool :=
  truthy (get w who setting).


Definition enable (who : app_id) (setting : string) : St unit :=
  set who setting (VBool true).


(** The handler of the "mount" event, run on the sub-application when
    [parent.use(sub)] mounts it. *)
Definition onmount (w : world) : world :=
  (* inherit trust proxy *)
  let w :=
    if is_true (get_value w Sub trustProxyDefaultSymbol)
       && is_function (get_value w Parent "trust proxy fn")
    then delete_own Sub "trust proxy fn" (delete_own Sub "trust proxy" w)
    else w in
  (* inherit protos *)
  {| sub := sub w; parent := parent w; mounted := true;
     anc_settings := anc_settings w; anc_engines := anc_engines w |}.

(** [this.cache = {}; this.engines = {}; this.settings = {}]: new
    objects, which inherit from [Object.prototype] alone. *)
Definition fresh_app : app_state :=
  {| settings := ∅; cache := ∅; engines := ∅; locals := ∅ |}.

Definition init_objects (who : app_id) : St unit :=
  fun w =>
    (match who with
     | Sub => {| sub := fresh_app; parent := parent w; mounted := false;
                 anc_settings := anc_settings w; anc_engines := anc_engines w |}
     | Parent => {| sub := sub w; parent := fresh_app; mounted := mounted w;
                    anc_settings := ∅; anc_engines := ∅ |}
     end, Ret tt).

(** [this.locals = Object.create(null); this.locals.settings = this.settings] *)
Definition setup_locals (who : app_id) : St unit :=
  fun w =>
    (with_app who {| settings := settings (app w who);
                     cache := cache (app w who);
                     engines := engines (app w who);
                     locals := {[ "settings" := VObj "settings" ]} |} w,
     Ret tt).

(** [defaultConfiguration]; [env] is [process.env.NODE_ENV ||
    "development"], [views] is [resolve("views")]. *)
Definition defaultConfiguration (env views : string) (who : app_id) : St unit :=
  (* default settings *)
  let* _ := enable who "x-powered-by" in
  let* _ := set who "etag" (VStr "weak") in
  let* _ := set who "env" (VStr env) in
  let* _ := set who "query parser" (VStr "extended") in
  let* _ := set who "subdomain offset" (VNum (of_Z 2)) in
  let* _ := set who "trust proxy" (VBool false) in
  (* trust proxy inherit back-compat *)
  let* _ := defineProperty who trustProxyDefaultSymbol (VBool true) in
  (* setup locals *)
  let* _ := setup_locals who in
  (* default configuration *)
  let* _ := set who "view" (VFun (FOpaque "View")) in
  let* _ := set who "views" (VStr views) in
  let* _ := set who "jsonp callback name" (VStr "callback") in
  if String.eqb env "production" then enable who "view cache" else ret tt.

(** [app.init()]: what [express()] runs to create the application, for
    the parent before anything is mounted under it. *)
Definition init (env views : string) (who : app_id) : St unit :=
  let* _ := init_objects who in
  defaultConfiguration env views who.

(** *** Histories of an application pair

    A call that throws leaves the state it had reached: the caller may
    catch the exception and go on. *)

Inductive op : Type :=
| OpSet (who : app_id) (setting : string) (val : jsval)
| OpMount.

Definition step (o : op) (w : world) : world :=
  match o with
  | OpSet who setting val => fst (set who setting val w)
  | OpMount => onmount w
  end.

Definition run (ops : list op) (w : world) : world :=
  fold_left (fun w o => step o w) ops w.

End WithProxyAddr.

(** ** lib/view.js *)

Definition dquote : string := String (ascii_of_nat 34) "".

Inductive cache_entry : Type :=
| CView (v : view)
| CBuiltin (name : string).   (* a member of Object.prototype *)

Section Rendering.

(** The [path] module of Node. *)
Variable path_extname : string -> string.
Variable path_dirname : string -> string.
Variable path_basename : string -> string.
Variable path_basename_ext : string -> string -> string.  (* basename(p, ext) *)
Variable path_join2 : string -> string -> string.
Variable path_join3 : string -> string -> string -> string.
(** [resolve(root, name)] throws when an argument it reads is no string. *)
Variable path_resolve : jsval -> string -> outcome string.

(** [require(mod).__express]: [None] when it is not a function. *)
Variable require_express : string -> outcome (option engine_fn).

(** ToString on the values that are neither strings nor arrays. *)
Variable ToString : jsval -> string.

Definition to_string (v : jsval) : string :=
  match v with
  | VStr s => s
  | VArr l => join "," l
  | _ => ToString v
  end.

(** [v[0] === '.'] *)
Definition index0_is_dot (v : jsval) : bool :=
  match v with
  | VStr s => starts_with s "."
  | VArr (x :: _) => String.eqb x "."
  | _ => false
  end.

Local Open Scope r_scope.

(** [tryStat(path)] followed by [stat && stat.isFile()]; [fs] says
    which paths are regular files. *)
Definition stat_is_file (fs : string -> bool) (path : string) : R bool :=
  ([EvStat path], Ret (fs path)).

(** [View.prototype.resolve] *)
Definition View_resolve (fs : string -> bool) (ext : jsval) (dir file : string)
    : R (option string) :=
  (* <path>.<ext> *)
  let path := path_join2 dir file in
  let* found := stat_is_file fs path in
  if found then retR (Some path)
  else
    (* <path>/index.<ext> *)
    match ext with
    | VStr e =>
        let path := path_join3 dir (path_basename_ext file e) ("index" +:+ e) in
        let* found := stat_is_file fs path in
        if found then retR (Some path) else retR None
    | _ => throwR (TypeError "The ext argument must be of type string")
    end.

(** The loop of [View.prototype.lookup] over the roots. *)
Fixpoint lookup_loop (fs : string -> bool) (ext : jsval) (name : string)
    (roots : list jsval) : R (option string) :=
  match roots with
  | [] => retR None
  | root :: roots' =>
      match path_resolve root name with
      | Throw e => throwR e
      | Ret loc =>
          let dir := path_dirname loc in
          let file := path_basename loc in
          let* path := View_resolve fs ext dir file in
          if truthy_str path then retR path
          else lookup_loop fs ext name roots'
      end
  end.

(** [View.prototype.lookup]; [[].concat(this.root)] gives the roots. *)
Definition View_lookup (fs : string -> bool) (ext root : jsval) (name : string)
    : R (option string) :=
  let roots := match root with
               | VArr l => map VStr l
               | _ => [root]
               end in
  lookup_loop fs ext name roots.

(** [new View(name, {defaultEngine, root, engines})]: the engines it
    stores in [opts.engines], and the view or the exception.  [engines]
    reads [opts.engines], prototype chain included. *)
Definition View (fs : string -> bool) (name : string) (defaultEngine root : jsval)
    (engines : string -> option engine_fn)
    : list (string * engine_fn) * R view :=
  let ext0 := path_extname name in
  if negb (truthy (VStr ext0)) && negb (truthy defaultEngine) then
    ([], throwR (Error "No default engine was specified and no extension was provided."))
  else
    let '(ext, fileName) :=
      if negb (truthy (VStr ext0)) then
        (* get extension from default engine name *)
        let e := if negb (index0_is_dot defaultEngine)
                 then VStr ("." +:+ to_string defaultEngine)
                 else defaultEngine in
        (e, name +:+ to_string e)
      else (VStr ext0, name) in
    let key := to_string ext in
    let loaded : list (string * engine_fn) * R engine_fn :=
      match engines key with
      | Some fn => ([], retR fn)
      | None =>
          (* load engine *)
          match ext with
          | VStr e =>
              let mod_name := sdrop 1 e in
              match require_express mod_name with
              | Throw err => ([], ([EvRequire mod_name], Throw err))
              | Ret None =>
                  ([], ([EvRequire mod_name],
                        Throw (Error ("Module " +:+ dquote +:+ mod_name +:+ dquote
                                      +:+ " does not provide a view engine."))))
              | Ret (Some fn) => ([(key, fn)], ([EvRequire mod_name], Ret fn))
              end
          | _ => ([], throwR (TypeError "this.ext.substr is not a function"))
          end
      end in
    (fst loaded,
     (* store loaded engine *)
     let* engine := snd loaded in
     (* lookup path *)
     let* path := View_lookup fs ext root fileName in
     retR {| v_defaultEngine := defaultEngine; v_ext := ext; v_name := name;
             v_root := root; v_engine := engine; v_path := path |}).

(** [View.prototype.render] *)
Definition View_render (this : view) (opts : options) (cb : callback) : R unit :=
  v_engine this (v_path this) opts cb.

(** ** [app.render] *)

(** [view.render(options, callback)] on what the cache gave. *)
Definition entry_render (e : cache_entry) (opts : options) (cb : callback)
    : R unit :=
  match e with
  | CView v => View_render v opts cb
  | CBuiltin _ => throwR (TypeError "view.render is not a function")
  end.

(** [tryRender] *)
Definition tryRender (view : cache_entry) (opts : options) (cb : callback)
    : R unit :=
  try_catch (entry_render view opts cb) (fun err => cb (CbErr err)).

(** [cache[name]] on the plain object [this.cache]. *)
Definition cache_get (cache : gmap string view) (name : string)
    : option cache_entry :=
  match cache !! name with
  | Some v => Some (CView v)
  | None =>
      if in_object_prototype name || String.eqb name "__proto__"
      then Some (CBuiltin name) else None
  end.

(** A member of [Object.prototype] called as an engine. *)
Definition builtin_engine (k : string) : engine_fn :=
  fun _ _ _ =>
    if String.eqb k "__defineGetter__" || String.eqb k "__defineSetter__"
    then throwR (TypeError "Expecting function")
    else retR tt.

Definition or_engine (a b : option engine_fn) : option engine_fn :=
  match a with
  | Some f => Some f
  | None => b
  end.

(** [this.engines[k]] *)
Definition engines_lookup (w : world) (who : app_id) (k : string)
    : option engine_fn :=
  let top := if in_object_prototype k then Some (builtin_engine k) else None in
  let from_parent :=
    or_engine (engines (parent w) !! k) (or_engine (anc_engines w !! k) top) in
  match who with
  | Parent => from_parent
  | Sub => or_engine (engines (sub w) !! k)
             (if mounted w then from_parent else top)
  end.

Definition register_engines (who : app_id) (regs : list (string * engine_fn))
    (w : world) : world :=
  with_app who {| settings := settings (app w who); cache := cache (app w who);
                  engines := fold_left (fun m r => <[fst r := snd r]> m) regs
                               (engines (app w who));
                  locals := locals (app w who) |} w.

(** [app.engine(ext, fn)] *)
Definition engine (who : app_id) (ext : string) (fn : engine_fn) (w : world)
    : world :=
  let extension := if negb (starts_with ext ".") then "." +:+ ext else ext in
  register_engines who [(extension, fn)] w.

(** [merge(a, b)] of utils-merge: the keys of [b] written over [a]. *)
Definition merge (a b : gmap string jsval) : gmap string jsval := b ∪ a.

Definition field (o : options) (k : string) : jsval :=
  match fields o !! k with
  | Some v => v
  | None => VUndefined
  end.

(** [x == null] *)
Definition nullish (v : jsval) : bool :=
  match v with
  | VUndefined | VNull => true
  | _ => false
  end.

(** The options the engine gets: [app.locals], [options._locals] and
    [options] merged, and [cache] set unless explicitly provided. *)
Definition render_options (w : world) (who : app_id) (opts : options) : options :=
  (* merge app.locals *)
  let r := merge ∅ (locals (app w who)) in
  (* merge options._locals *)
  let r := match o_locals opts with
           | Some l => merge r l
           | None => r
           end in
  (* merge options *)
  let r := {| fields := merge r (fields opts); o_locals := o_locals opts |} in
  (* set .cache unless explicitly provided *)
  if nullish (field r "cache")
  then {| fields := <["cache" := VBool (enabled w who "view cache")]> (fields r);
          o_locals := o_locals r |}
  else r.

Inductive render_args : Type :=
| WithOptions (opts : options) (cb : callback)
| CallbackOnly (cb : callback).   (* support callback function as second arg *)

Definition args_options (args : render_args) : options :=
  match args with
  | WithOptions o _ => o
  | CallbackOnly _ => {| fields := ∅; o_locals := None |}
  end.

Definition args_done (args : render_args) : callback :=
  match args with
  | WithOptions _ cb => cb
  | CallbackOnly cb => cb
  end.

(** What a render call leaves: the world, how many times it ran
    [new View] (kept for the statements, not part of the program's
    state), and what it did. *)
Record rendered : Type := {
  r_world : world;
  r_views_made : nat;
  r_run : R unit
}.

Definition prime (who : app_id) (name : string) (v : view) (w : world) : world :=
  with_app who {| settings := settings (app w who);
                  cache := <[name := v]> (cache (app w who));
                  engines := engines (app w who);
                  locals := locals (app w who) |} w.

(** The message of the error for a view that no root has. *)
Definition lookup_error (name : string) (root : jsval) : string :=
  let dirs :=
    match root with
    | VArr (a :: b :: l) =>
        "directories " +:+ dquote
        +:+ String.concat (dquote +:+ ", " +:+ dquote) (removelast (a :: b :: l))
        +:+ dquote +:+ " or " +:+ dquote +:+ List.last (a :: b :: l) "" +:+ dquote
    | _ => "directory " +:+ dquote +:+ to_string root +:+ dquote
    end in
  "Failed to lookup view " +:+ dquote +:+ name +:+ dquote +:+ " in views " +:+ dirs.

(** [app.render(name, options, callback)]; the "view" setting is taken
    to hold the [View] of lib/view.js, its default. *)
Definition render (fs : string -> bool) (w : world) (who : app_id)
    (name : string) (args : render_args) : rendered :=
  let cache := cache (app w who) in
  let done := args_done args in
  let opts := args_options args in
  let renderOptions := render_options w who opts in
  (* primed cache *)
  let view := if truthy (field renderOptions "cache")
              then cache_get cache name else None in
  match view with
  | Some view =>
      (* render *)
      {| r_world := w; r_views_made := 0;
         r_run := tryRender view renderOptions done |}
  | None =>
      (* view *)
      let '(regs, made) :=
        View fs name (get w who "view engine") (get w who "views")
          (engines_lookup w who) in
      let w := register_engines who regs w in
      match made with
      | (tr, Throw e) => {| r_world := w; r_views_made := 1; r_run := (tr, Throw e) |}
      | (tr, Ret view) =>
          if negb (truthy_str (v_path view)) then
            {| r_world := w; r_views_made := 1;
               r_run := let* _ := (tr, Ret tt) in
                        done (CbErr (Error (lookup_error name (v_root view)))) |}
          else
            (* prime the cache *)
            let w := if truthy (field renderOptions "cache")
                     then prime who name view w else w in
            (* render *)
            {| r_world := w; r_views_made := 1;
               r_run := let* _ := (tr, Ret tt) in
                        tryRender (CView view) renderOptions done |}
      end
  end.

End Rendering.

(** ** Reference notions of the statements *)

(** The inheritability marker of the sub-application: its own property
    [trustProxyDefaultSymbol]. *)
Definition marker (w : world) : option prop :=
  settings (sub w) !! trustProxyDefaultSymbol.

(** The marker is read-only and says "default" ([true]) or "explicit"
    ([false]). *)
Definition marker_is (w : world) (b : bool) : Prop :=
  marker w = Some {| value := VBool b; writable := false |}.



(** A [set] of "trust proxy" on the sub-application. *)
Definition sets_sub_trust_proxy (o : op) : Prop :=
  match o with
  | OpSet Sub setting _ => setting = "trust proxy"
  | _ => False
  end.

(** Whether caching is in effect for a render call: the [cache] field
    of the merged options, the "view cache" setting by default. *)
Definition caching (w : world) (who : app_id) (args : render_args) : bool :=
  truthy (field (render_options w who (args_options args)) "cache").

(** ** Example instances *)

(** An instance of [proxyaddr.compile] for the examples: the listed
    addresses are trusted, compared as strings (no ranges). *)
Definition listed_compile (v : jsval) : outcome trust_fn :=
  match v with
  | VArr l => Ret (fun addr _ =>
                     match addr with
                     | Some a => existsb (String.eqb a) l
                     | None => false
                     end)
  | _ => Throw (TypeError "unsupported trust argument")
  end.

Definition empty_world : world :=
  {| sub := fresh_app; parent := fresh_app; mounted := false;
     anc_settings := ∅; anc_engines := ∅ |}.

(** Two applications as [express()] makes them. *)
Definition two_apps : world :=
  fst (init listed_compile "development" "/srv/views" Parent
         (fst (init listed_compile "development" "/srv/views" Sub empty_world))).

(** Instances of the other collaborators for the examples: the [path]
    functions on absolute roots and plain names, no module to
    [require]. *)

Definition ex_last (c : ascii) (s : string) : string := List.last (split c s) "".

Definition ex_basename (p : string) : string := ex_last "/" p.

Definition ex_dirname (p : string) : string :=
  match split "/" p with
  | [_] => "."
  | pieces => let d := join "/" (removelast pieces) in
              if String.eqb d "" then "/" else d
  end.

Definition ex_extname (p : string) : string :=
  match split "." (ex_basename p) with
  | [_] => ""
  | [""; _] => ""
  | _ => "." +:+ ex_last "." (ex_basename p)
  end.

Definition ex_basename_ext (file ext : string) : string :=
  let n := (String.length file - String.length ext)%nat in
  if String.eqb (sdrop n file) ext && negb (String.eqb file ext)
  then stake n file else file.

Definition ex_join2 (a b : string) : string := a +:+ "/" +:+ b.

Definition ex_join3 (a b c : string) : string := a +:+ "/" +:+ b +:+ "/" +:+ c.

Definition ex_resolve (root : jsval) (name : string) : outcome string :=
  if starts_with name "/" then Ret name
  else match root with
       | VStr r => Ret (r +:+ "/" +:+ name)
       | _ => Throw (TypeError "The paths[0] argument must be of type string")
       end.

Definition ex_require (mod_name : string) : outcome (option engine_fn) :=
  Throw (Error ("Cannot find module " +:+ mod_name)).

Definition ex_ToString (v : jsval) : string :=
  match v with
  | VUndefined => "undefined"
  | VNull => "null"
  | VBool true => "true"
  | VBool false => "false"
  | _ => "[object Object]"
  end.

Definition ex_render : (string -> bool) -> world -> app_id -> string ->
                       render_args -> rendered :=
  render ex_extname ex_dirname ex_basename ex_basename_ext ex_join2 ex_join3
    ex_resolve ex_require ex_ToString.

(** An engine that renders the path, one that throws, a callback that
    only leaves a trace. *)
Definition path_engine : engine_fn := fun path _ cb => cb (CbOk path).

Definition failing_engine : engine_fn :=
  fun _ _ _ => throwR (Raised "template error").

Definition log_cb : callback := fun arg => ([EvCallback arg], Ret tt).

Definition dev_app : world := engine Sub "html" path_engine two_apps.

Definition prod_app : world :=
  engine Sub "html" path_engine
    (fst (init listed_compile "production" "/srv/views" Parent
            (fst (init listed_compile "production" "/srv/views" Sub empty_world)))).

Definition fs_email (p : string) : bool := String.eqb p "/srv/views/email.html".

Definition fs_none (p : string) : bool := false.

Definition cache_on : options :=
  {| fields := {[ "cache" := VBool true ]}; o_locals := None |}.

Definition failing_view : view :=
  {| v_defaultEngine := VUndefined; v_ext := VStr ".html"; v_name := "email.html";
     v_root := VStr "/srv/views"; v_engine := failing_engine;
     v_path := Some "/srv/views/email.html" |}.

(** The compiled key of a setting and its compiler, if it has one. *)
Definition compiled_key (k : string) : option string :=
  if String.eqb k "etag" then Some "etag fn"
  else if String.eqb k "query parser" then Some "query parser fn"
  else if String.eqb k "trust proxy" then Some "trust proxy fn"
  else None.

Definition compile (pc : jsval -> outcome trust_fn) (k : string) (v : jsval)
    : outcome jsval :=
  if String.eqb k "etag" then compileETag v
  else if String.eqb k "query parser" then compileQueryParser v
  else JS.bind (compileTrust pc v) (fun f => Ret (VFun f)).

(** An event of [fs.statSync]. *)
Definition is_stat (ev : event) : bool :=
  match ev with
  | EvStat _ => true
  | _ => false
  end.

(** The roots [View.prototype.lookup] goes through: [[].concat(root)]. *)
Definition roots_of (root : jsval) : list jsval :=
  match root with
  | VArr l => map VStr l
  | _ => [root]
  end.

Section Candidates.

Variable path_dirname : string -> string.
Variable path_basename : string -> string.
Variable path_basename_ext : string -> string -> string.
Variable path_join2 : string -> string -> string.
Variable path_join3 : string -> string -> string -> string.

(** The two candidates of a directory: [<dir>/<file>] and
    [<dir>/<file without ext>/index<ext>]. *)
Definition direct (dir file : string) : string := path_join2 dir file.
Definition index_of (dir file e : string) : string :=
  path_join3 dir (path_basename_ext file e) ("index" +:+ e).

(** The roots have no file for the view: per root, the direct candidate
    is no file and the index candidate is no file or has the empty
    path, or the direct candidate is a file with the empty path. *)
Definition no_file (fs : string -> bool) (ext : jsval) (loc : string) : Prop :=
  let dir := path_dirname loc in
  let file := path_basename loc in
  (fs (direct dir file) = false
   /\ exists e, ext = VStr e
                /\ (fs (index_of dir file e) = false \/ index_of dir file e = ""))
  \/ (fs (direct dir file) = true /\ direct dir file = "").

End Candidates.

(** An instance of [require] for the examples: the module "pug" alone
    exists, with [path_engine] as its [__express]. *)
Definition ex_require_pug (mod_name : string) : outcome (option engine_fn) :=
  if String.eqb mod_name "pug" then Ret (Some path_engine)
  else Throw (Error ("Cannot find module " +:+ mod_name)).


(** ** Properties of the settings *)

Section SettingsFacts.
Variable pc : jsval -> outcome trust_fn.

Lemma with_own_own who m w : own (with_own who m w) who = m.
Proof. now destruct who. Qed.

Lemma assign_frame who k v w who' j :
  who' <> who \/ j <> k ->
  own (fst (assign who k v w)) who' !! j = own w who' !! j.
Proof.
  intros H. unfold assign.
  destruct (get_prop w who k) as [[pv []]|]; cbn [writable fst]; try reflexivity;
    destruct who, who'; cbn; destruct H as [H | H]; try congruence;
    try reflexivity; now rewrite lookup_insert_ne.
Qed.

Lemma assign_rest who k v w :
  mounted (fst (assign who k v w)) = mounted w
  /\ anc_settings (fst (assign who k v w)) = anc_settings w.
Proof.
  unfold assign.
  destruct (get_prop w who k) as [[pv []]|]; cbn [writable fst]; destruct who; auto.
Qed.

Lemma assign_blocked who k v w p :
  own w who !! k = Some p -> writable p = false ->
  fst (assign who k v w) = w.
Proof.
  intros Hp Hw. unfold assign.
  assert (get_prop w who k = Some p) as ->.
  { unfold get_prop, own in *. destruct who; cbn in *; now rewrite Hp. }
  now rewrite Hw.
Qed.

Lemma defineProperty_frame who k v w who' j :
  who' <> who \/ j <> k ->
  own (fst (defineProperty who k v w)) who' !! j = own w who' !! j.
Proof.
  intros H. unfold defineProperty. cbn [fst].
  destruct who, who'; cbn; destruct H as [H | H]; try congruence;
    try reflexivity; now rewrite lookup_insert_ne.
Qed.

(** A [set] on one application leaves the own settings of the other, and
    the keys it does not write, as they were. *)
Lemma set_frame who k v w who' j :
  who' <> who
  \/ (j <> k /\ j <> "etag fn" /\ j <> "query parser fn" /\ j <> "trust proxy fn"
      /\ (j <> trustProxyDefaultSymbol \/ k <> "trust proxy")) ->
  own (fst (set pc who k v w)) who' !! j = own w who' !! j.
Proof.
  intros H. unfold set, bindS, lift, ret.
  assert (Hk : who' <> who \/ j <> k) by tauto.
  assert (He : who' <> who \/ j <> "etag fn") by tauto.
  assert (Hq : who' <> who \/ j <> "query parser fn") by tauto.
  assert (Ht : who' <> who \/ j <> "trust proxy fn") by tauto.
  pose proof (assign_frame who k v w who' j Hk) as H1.
  destruct (assign who k v w) as [w1 [[]|e]]; cbn [fst] in *; [|exact H1].
  destruct (String.eqb k "etag").
  { destruct (compileETag v) as [fn|e]; [|exact H1].
    pose proof (assign_frame who "etag fn" fn w1 who' j He) as H2.
    destruct (assign who "etag fn" fn w1) as [w2 [[]|e]]; cbn [fst] in *; congruence. }
  destruct (String.eqb k "query parser").
  { destruct (compileQueryParser v) as [fn|e]; [|exact H1].
    pose proof (assign_frame who "query parser fn" fn w1 who' j Hq) as H2.
    destruct (assign who "query parser fn" fn w1) as [w2 [[]|e]];
      cbn [fst] in *; congruence. }
  destruct (String.eqb_spec k "trust proxy") as [Hkt|Hkt]; [|exact H1].
  destruct (compileTrust pc v) as [fn|e]; [|exact H1].
  pose proof (assign_frame who "trust proxy fn" (VFun fn) w1 who' j Ht) as H2.
  destruct (assign who "trust proxy fn" (VFun fn) w1) as [w2 [[]|e]];
    cbn [fst] in *; [|congruence].
  rewrite defineProperty_frame; [congruence|]. tauto.
Qed.

Lemma set_rest who k v w :
  mounted (fst (set pc who k v w)) = mounted w
  /\ anc_settings (fst (set pc who k v w)) = anc_settings w.
Proof.
  unfold set, bindS, lift, ret.
  pose proof (assign_rest who k v w) as [H1 H1'].
  destruct (assign who k v w) as [w1 [[]|e]]; cbn [fst] in *; [|auto].
  destruct (String.eqb k "etag").
  { destruct (compileETag v) as [fn|e]; [|auto].
    pose proof (assign_rest who "etag fn" fn w1) as [H2 H2'].
    destruct (assign who "etag fn" fn w1) as [w2 [[]|e]]; cbn [fst] in *;
      split; congruence. }
  destruct (String.eqb k "query parser").
  { destruct (compileQueryParser v) as [fn|e]; [|auto].
    pose proof (assign_rest who "query parser fn" fn w1) as [H2 H2'].
    destruct (assign who "query parser fn" fn w1) as [w2 [[]|e]];
      cbn [fst] in *; split; congruence. }
  destruct (String.eqb k "trust proxy"); [|auto].
  destruct (compileTrust pc v) as [fn|e]; [|auto].
  pose proof (assign_rest who "trust proxy fn" (VFun fn) w1) as [H2 H2'].
  destruct (assign who "trust proxy fn" (VFun fn) w1) as [w2 [[]|e]];
    cbn [fst] in *; [|split; congruence].
  unfold defineProperty. cbn [fst]. destruct who; cbn; split; congruence.
Qed.


Lemma assign_read_only who k v w p :
  own w who !! k = Some p -> writable p = false ->
  exists e, assign who k v w = (w, Throw e).
Proof.
  intros Hp Hw. unfold assign.
  assert (get_prop w who k = Some p) as ->.
  { unfold get_prop, own in *. destruct who; cbn in *; now rewrite Hp. }
  rewrite Hw. eauto.
Qed.

(** The marker of the sub-application, once read-only, is changed by no
    [set] other than that of "trust proxy" on the sub-application. *)
Lemma set_marker_kept who k v w p :
  marker w = Some p -> writable p = false ->
  who = Parent \/ k <> "trust proxy" ->
  marker (fst (set pc who k v w)) = Some p.
Proof.
  intros Hm Hw H. unfold marker in *.
  destruct who.
  2: { change (own (fst (set pc Parent k v w)) Sub !! trustProxyDefaultSymbol = Some p).
       rewrite set_frame; [exact Hm | left; discriminate]. }
  destruct H as [H | H]; [discriminate|].
  destruct (String.eqb_spec k trustProxyDefaultSymbol) as [-> | Hk].
  - destruct (assign_read_only Sub trustProxyDefaultSymbol v w p Hm Hw) as [e He].
    unfold set, bindS. now rewrite He.
  - change (own (fst (set pc Sub k v w)) Sub !! trustProxyDefaultSymbol = Some p).
    rewrite set_frame; [exact Hm|]. right.
    repeat split; try discriminate; auto.
Qed.

(** A [set] of "trust proxy" that returns leaves the marker at
    "explicit". *)
Lemma set_trust_proxy_marker who v w w' :
  set pc who "trust proxy" v w = (w', Ret tt) ->
  own w' who !! trustProxyDefaultSymbol
  = Some {| value := VBool false;
            writable := match own w who !! trustProxyDefaultSymbol with
                        | Some p => writable p
                        | None => false
                        end |}.
Proof.
  unfold set, bindS, lift.
  pose proof (assign_frame who "trust proxy" v w who trustProxyDefaultSymbol
                ltac:(right; discriminate)) as H1.
  destruct (assign who "trust proxy" v w) as [w1 [[]|e]]; [|discriminate].
  change (String.eqb "trust proxy" "etag") with false.
  change (String.eqb "trust proxy" "query parser") with false.
  change (String.eqb "trust proxy" "trust proxy") with true. cbv iota.
  destruct (compileTrust pc v) as [fn|e]; [|discriminate].
  pose proof (assign_frame who "trust proxy fn" (VFun fn) w1 who
                trustProxyDefaultSymbol ltac:(right; discriminate)) as H2.
  destruct (assign who "trust proxy fn" (VFun fn) w1) as [w2 [[]|e]];
    [|discriminate].
  unfold defineProperty. intros [= <-]. rewrite with_own_own.
  rewrite lookup_insert_eq. cbn [fst] in *. now rewrite H2, H1.
Qed.

Lemma set_sub_trust_proxy_marker v w b :
  marker_is w b ->
  exists b', marker_is (fst (set pc Sub "trust proxy" v w)) b'
             /\ (snd (set pc Sub "trust proxy" v w) = Ret tt -> b' = false)
             /\ (b = false -> b' = false).
Proof.
  unfold marker_is, marker. intros Hm.
  assert (F1 : forall w0 k x, k <> trustProxyDefaultSymbol ->
            settings (sub (fst (assign Sub k x w0))) !! trustProxyDefaultSymbol
            = settings (sub w0) !! trustProxyDefaultSymbol).
  { intros. apply (assign_frame Sub k x w0 Sub). now right. }
  unfold set, bindS, lift.
  pose proof (F1 w "trust proxy" v ltac:(discriminate)) as H1.
  destruct (assign Sub "trust proxy" v w) as [w1 [[]|e]]; cbn [fst snd] in *.
  2: { exists b. rewrite H1. repeat split; auto; discriminate. }
  change (String.eqb "trust proxy" "etag") with false.
  change (String.eqb "trust proxy" "query parser") with false.
  change (String.eqb "trust proxy" "trust proxy") with true. cbv iota.
  destruct (compileTrust pc v) as [fn|e]; cbn [fst snd].
  2: { exists b. rewrite H1. repeat split; auto; discriminate. }
  pose proof (F1 w1 "trust proxy fn" (VFun fn) ltac:(discriminate)) as H2.
  destruct (assign Sub "trust proxy fn" (VFun fn) w1) as [w2 [[]|e]];
    cbn [fst snd] in *.
  2: { exists b. rewrite H2, H1. repeat split; auto; discriminate. }
  exists false. unfold defineProperty. cbn.
  rewrite lookup_insert_eq. unfold own. cbn.
  rewrite H2, H1, Hm. cbn. auto.
Qed.

Lemma onmount_marker w : marker (onmount w) = marker w.
Proof.
  unfold marker, onmount.
  destruct (is_true _ && is_function _); cbn; [|reflexivity].
  rewrite !lookup_delete_ne by discriminate. reflexivity.
Qed.


Definition inherits (w : world) : Prop :=
  mounted w = true
  /\ settings (sub w) !! "trust proxy" = None
  /\ settings (sub w) !! "trust proxy fn" = None.

Lemma inherits_get w :
  inherits w ->
  get w Sub "trust proxy fn" = get w Parent "trust proxy fn"
  /\ get w Sub "trust proxy" = get w Parent "trust proxy".
Proof.
  intros (Hm & H1 & H2). unfold get, get_value, get_prop.
  now rewrite Hm, H1, H2.
Qed.

Lemma onmount_default w f :
  marker_is w true ->
  get w Parent "trust proxy fn" = VFun f ->
  inherits (onmount w) /\ parent (onmount w) = parent w
  /\ anc_settings (onmount w) = anc_settings w.
Proof.
  unfold marker_is, marker, get. intros Hm Hf.
  unfold onmount.
  assert (is_true (get_value w Sub trustProxyDefaultSymbol) = true) as ->.
  { unfold get_value, get_prop. now rewrite Hm. }
  rewrite Hf. cbn. unfold inherits. cbn.
  rewrite lookup_delete_ne by discriminate.
  rewrite !lookup_delete_eq. auto.
Qed.



Lemma step_explicit o w : marker_is w false -> marker_is (step pc o w) false.
Proof.
  intros Hm. destruct o as [who k v|]; cbn.
  - destruct who.
    + destruct (String.eqb_spec k "trust proxy") as [-> | Hk].
      * destruct (set_sub_trust_proxy_marker v w false Hm) as (b' & Hb & _ & H).
        now rewrite (H eq_refl) in Hb.
      * apply set_marker_kept; auto.
    + apply set_marker_kept; auto.
  - unfold marker_is. now rewrite onmount_marker.
Qed.

Lemma run_explicit ops w : marker_is w false -> marker_is (run pc ops w) false.
Proof.
  revert w. induction ops as [|o ops IH]; intros w Hm; [exact Hm|].
  cbn. apply IH. now apply step_explicit.
Qed.

Lemma step_default o w :
  ~ sets_sub_trust_proxy o -> marker_is w true -> marker_is (step pc o w) true.
Proof.
  intros Ho Hm. destruct o as [who k v|]; cbn.
  - apply set_marker_kept; auto. destruct who; auto.
  - unfold marker_is. now rewrite onmount_marker.
Qed.


Lemma step_created o w :
  (exists b, marker_is w b) -> exists b, marker_is (step pc o w) b.
Proof.
  intros [b Hm]. destruct o as [who k v|]; cbn.
  - destruct who.
    + destruct (String.eqb_spec k "trust proxy") as [-> | Hk].
      * destruct (set_sub_trust_proxy_marker v w b Hm) as (b' & Hb & _). eauto.
      * exists b. apply set_marker_kept; auto.
    + exists b. apply set_marker_kept; auto.
  - exists b. unfold marker_is. now rewrite onmount_marker.
Qed.

Lemma run_created ops w :
  (exists b, marker_is w b) -> exists b, marker_is (run pc ops w) b.
Proof.
  revert w. induction ops as [|o ops IH]; intros w Hm; [exact Hm|].
  cbn. apply IH. now apply step_created.
Qed.


Lemma bindS_ret {A B} (m : St A) (k : A -> St B) w w' b :
  bindS m k w = (w', Ret b) ->
  exists w1 a, m w = (w1, Ret a) /\ k a w1 = (w', Ret b).
Proof.
  unfold bindS. destruct (m w) as [w1 [a|e]]; [eauto | discriminate].
Qed.

(** A new application carries the marker "default". *)
Lemma init_marker env views w w' :
  init pc env views Sub w = (w', Ret tt) -> marker_is w' true.
Proof.
  unfold init, defaultConfiguration, enable. intros H.
  apply bindS_ret in H as (w0 & [] & H0 & H).
  assert (E0 : own w0 Sub !! trustProxyDefaultSymbol = None).
  { unfold init_objects in H0. injection H0 as <-. reflexivity. }
  assert (F : forall k v wa wb,
            k <> "trust proxy" -> k <> trustProxyDefaultSymbol ->
            set pc Sub k v wa = (wb, Ret tt) ->
            own wb Sub !! trustProxyDefaultSymbol
            = own wa Sub !! trustProxyDefaultSymbol).
  { intros k v wa wb Hk Hk' Hs.
    pose proof (set_frame Sub k v wa Sub trustProxyDefaultSymbol) as Fr.
    rewrite Hs in Fr. apply Fr. right.
    repeat split; try discriminate; auto. }
  apply bindS_ret in H as (w1 & [] & H1 & H). apply F in H1; try discriminate.
  apply bindS_ret in H as (w2 & [] & H2 & H). apply F in H2; try discriminate.
  apply bindS_ret in H as (w3 & [] & H3 & H). apply F in H3; try discriminate.
  apply bindS_ret in H as (w4 & [] & H4 & H). apply F in H4; try discriminate.
  apply bindS_ret in H as (w5 & [] & H5 & H). apply F in H5; try discriminate.
  apply bindS_ret in H as (w6 & [] & H6 & H).
  apply set_trust_proxy_marker in H6.
  rewrite H5, H4, H3, H2, H1, E0 in H6.
  apply bindS_ret in H as (w7 & [] & H7 & H).
  assert (M7 : marker_is w7 true).
  { unfold defineProperty in H7. injection H7 as <-.
    unfold marker_is, marker. cbn. rewrite lookup_insert_eq.
    unfold own in *. cbn in *. now rewrite H6. }
  apply bindS_ret in H as (w8 & [] & H8 & H).
  assert (M8 : marker_is w8 true).
  { unfold setup_locals in H8. injection H8 as <-. exact M7. }
  assert (G : forall k v wa wb,
            k <> "trust proxy" -> marker_is wa true ->
            set pc Sub k v wa = (wb, Ret tt) -> marker_is wb true).
  { intros k v wa wb Hk Hm Hs. unfold marker_is.
    replace wb with (fst (set pc Sub k v wa)) by now rewrite Hs.
    apply set_marker_kept; auto. }
  apply bindS_ret in H as (w9 & [] & H9 & H). apply G in H9; auto; try discriminate.
  apply bindS_ret in H as (w10 & [] & H10 & H). apply G in H10; auto; try discriminate.
  apply bindS_ret in H as (w11 & [] & H11 & H). apply G in H11; auto; try discriminate.
  destruct (String.eqb env "production").
  - apply G in H; auto; discriminate.
  - unfold ret in H. now injection H as <-.
Qed.


Lemma assign_keeps who k v w who' j :
  is_Some (own w who' !! j) -> is_Some (own (fst (assign who k v w)) who' !! j).
Proof.
  intros H. unfold assign.
  destruct (get_prop w who k) as [[pv []]|]; cbn [writable fst]; try exact H;
    destruct who, who'; cbn; try exact H;
    (destruct (decide (k = j)) as [-> | Hne];
     [rewrite lookup_insert_eq; eauto | now rewrite lookup_insert_ne]).
Qed.

Lemma defineProperty_keeps who k v w who' j :
  is_Some (own w who' !! j) ->
  is_Some (own (fst (defineProperty who k v w)) who' !! j).
Proof.
  intros H. unfold defineProperty. cbn [fst].
  destruct who, who'; cbn; try exact H;
    (destruct (decide (k = j)) as [-> | Hne];
     [rewrite lookup_insert_eq; eauto | now rewrite lookup_insert_ne]).
Qed.


Lemma assign_stores who k v w w' :
  assign who k v w = (w', Ret tt) ->
  own w' who !! k = Some {| value := v; writable := true |}.
Proof.
  unfold assign.
  destruct (get_prop w who k) as [[pv []]|]; cbn [writable];
    intros [= <-]; rewrite with_own_own; apply lookup_insert_eq.
Qed.

(** After a [set] of "trust proxy" that returns, the application has
    its own "trust proxy" and "trust proxy fn". *)
Lemma set_trust_proxy_own who v w w' :
  set pc who "trust proxy" v w = (w', Ret tt) ->
  is_Some (own w' who !! "trust proxy")
  /\ is_Some (own w' who !! "trust proxy fn").
Proof.
  unfold set, bindS, lift.
  destruct (assign who "trust proxy" v w) as [w1 [[]|e]] eqn:E1; [|discriminate].
  change (String.eqb "trust proxy" "etag") with false.
  change (String.eqb "trust proxy" "query parser") with false.
  change (String.eqb "trust proxy" "trust proxy") with true. cbv iota.
  destruct (compileTrust pc v) as [fn|e]; [|discriminate].
  destruct (assign who "trust proxy fn" (VFun fn) w1) as [w2 [[]|e]] eqn:E2;
    [|discriminate].
  intros H.
  replace w' with (fst (defineProperty who trustProxyDefaultSymbol (VBool false) w2))
    by now rewrite H.
  pose proof (assign_stores _ _ _ _ _ E1) as S1.
  pose proof (assign_stores _ _ _ _ _ E2) as S2.
  split; apply defineProperty_keeps.
  - replace w2 with (fst (assign who "trust proxy fn" (VFun fn) w1))
      by now rewrite E2.
    apply assign_keeps. rewrite S1. eauto.
  - rewrite S2. eauto.
Qed.






End SettingsFacts.



(** ** Properties of rendering *)

Section RenderingFacts.

Variable path_extname : string -> string.
Variable path_dirname : string -> string.
Variable path_basename : string -> string.
Variable path_basename_ext : string -> string -> string.
Variable path_join2 : string -> string -> string.
Variable path_join3 : string -> string -> string -> string.
Variable path_resolve : jsval -> string -> outcome string.
Variable require_express : string -> outcome (option engine_fn).
Variable ToString : jsval -> string.

Local Abbreviation render :=
  (render path_extname path_dirname path_basename path_basename_ext
     path_join2 path_join3 path_resolve require_express ToString).

Local Abbreviation View :=
  (View path_extname path_dirname path_basename path_basename_ext
     path_join2 path_join3 path_resolve require_express ToString).

Lemma register_engines_rest who regs w :
  (forall who', settings (app (register_engines who regs w) who')
                = settings (app w who')
                /\ locals (app (register_engines who regs w) who')
                   = locals (app w who')
                /\ cache (app (register_engines who regs w) who')
                   = cache (app w who'))
  /\ mounted (register_engines who regs w) = mounted w
  /\ anc_settings (register_engines who regs w) = anc_settings w.
Proof. destruct who; repeat split; destruct who'; reflexivity. Qed.

Lemma prime_rest who name v w :
  (forall who', settings (app (prime who name v w) who') = settings (app w who')
                /\ locals (app (prime who name v w) who') = locals (app w who'))
  /\ mounted (prime who name v w) = mounted w
  /\ anc_settings (prime who name v w) = anc_settings w.
Proof. destruct who; repeat split; destruct who'; reflexivity. Qed.

Lemma prime_cache who name v w :
  cache (app (prime who name v w) who) = <[name := v]> (cache (app w who)).
Proof. now destruct who. Qed.


(** The case analysis of [render]. *)
Lemma render_cases fs w who name args :
  let r := render fs w who name args in
  let ro := render_options w who (args_options args) in
  (exists e, caching w who args = true
             /\ cache_get (cache (app w who)) name = Some e
             /\ r_world r = w /\ r_views_made r = 0%nat
             /\ r_run r = tryRender e ro (args_done args))
  \/ ((caching w who args = false
       \/ cache_get (cache (app w who)) name = None)
      /\ r_views_made r = 1%nat
      /\ exists regs made,
           View fs name (get w who "view engine") (get w who "views")
             (engines_lookup w who) = (regs, made)
           /\ ((r_world r = register_engines who regs w
                /\ forall v, snd made = Ret v -> truthy_str (v_path v) = false)
               \/ (exists v, snd made = Ret v /\ truthy_str (v_path v) = true
                   /\ r_world r
                      = (if caching w who args
                         then prime who name v (register_engines who regs w)
                         else register_engines who regs w)
                   /\ r_run r
                      = bindR (fst made, Ret tt)
                          (fun _ => tryRender (CView v) ro (args_done args))))).
Proof.
  cbv zeta. unfold render, caching.
  set (ro := render_options w who (args_options args)).
  destruct (truthy (field ro "cache")) eqn:Ec.
  - destruct (cache_get (cache (app w who)) name) as [e|] eqn:Eg.
    + left. exists e. auto.
    + right. split; [auto|].
      destruct (View fs name _ _ _) as [regs [tr [v|e]]] eqn:Ev.
      * destruct (truthy_str (v_path v)) eqn:Ep; cbn [negb].
        -- split; [reflexivity|]. exists regs, (tr, Ret v). split; [reflexivity|].
           right. exists v. auto.
        -- split; [reflexivity|]. exists regs, (tr, Ret v). split; [reflexivity|].
           left. split; [reflexivity|]. cbn. now intros v' [= <-].
      * split; [reflexivity|]. exists regs, (tr, Throw e). split; [reflexivity|].
        left. split; [reflexivity|]. discriminate.
  - right. split; [auto|].
    destruct (View fs name _ _ _) as [regs [tr [v|e]]] eqn:Ev.
    + destruct (truthy_str (v_path v)) eqn:Ep; cbn [negb].
      * split; [reflexivity|]. exists regs, (tr, Ret v). split; [reflexivity|].
        right. exists v. auto.
      * split; [reflexivity|]. exists regs, (tr, Ret v). split; [reflexivity|].
        left. split; [reflexivity|]. cbn. now intros v' [= <-].
    + split; [reflexivity|]. exists regs, (tr, Throw e). split; [reflexivity|].
      left. split; [reflexivity|]. discriminate.
Qed.


Lemma cache_get_cached (c : gmap string view) name v :
  c !! name = Some v -> cache_get c name = Some (CView v).
Proof. intros H. unfold cache_get. now rewrite H. Qed.

Lemma register_engines_cache who regs w :
  cache (app (register_engines who regs w) who) = cache (app w who).
Proof. now destruct who. Qed.


(** C9: when the engine of a view throws, [tryRender] catches the
    exception and calls the same callback with it as error argument; the
    caller sees what that call of the callback does, and nothing else is
    thrown to it; so it is for [app.render] on a cached view. *)
Theorem tryRender_catches (v : view) (opts : options) (cb : callback)
    (tr : list event) (e : exn) :
  v_engine v (v_path v) opts cb = (tr, Throw e) ->
  tryRender (CView v) opts cb
  = ((tr ++ fst (cb (CbErr e)))%list, snd (cb (CbErr e)))
  /\ (snd (cb (CbErr e)) = Ret tt -> snd (tryRender (CView v) opts cb) = Ret tt)
  /\ (forall e', snd (tryRender (CView v) opts cb) = Throw e' ->
                 snd (cb (CbErr e)) = Throw e')
  /\ (forall fs w who name args,
        opts = render_options w who (args_options args) ->
        cb = args_done args ->
        caching w who args = true -> cache (app w who) !! name = Some v ->
        r_run (render fs w who name args)
        = ((tr ++ fst (cb (CbErr e)))%list, snd (cb (CbErr e)))).
Proof.
  intros H.
  assert (T : tryRender (CView v) opts cb
              = ((tr ++ fst (cb (CbErr e)))%list, snd (cb (CbErr e)))).
  { unfold tryRender, entry_render, View_render, try_catch.
    rewrite H. now destruct (cb (CbErr e)) as [tr' r]. }
  split; [exact T|]. rewrite T. cbn [snd]. split; [auto|]. split; [auto|].
  intros fs w who name args -> -> Hc Hv.
  pose proof (render_cases fs w who name args) as C. cbv zeta in C.
  apply cache_get_cached in Hv.
  destruct C as [(en & _ & He & _ & _ & ->) | ([Hx | Hx] & _)]; congruence.
Qed.

End RenderingFacts.



(** C9 on an engine that throws: the callback is called with the
    error and the call returns. *)
Lemma tryRender_catches_witness :
  tryRender (CView failing_view) cache_on log_cb
  = ([EvCallback (CbErr (Raised "template error"))], Ret tt).
Proof.
  exact (proj1 (tryRender_catches ex_extname ex_dirname ex_basename
                  ex_basename_ext ex_join2 ex_join3 ex_resolve ex_require
                  ex_ToString failing_view cache_on log_cb []
                  (Raised "template error") eq_refl)).
Defined.
(** ** Further properties of the settings *)

Section SettingsMore.
Variable pc : jsval -> outcome trust_fn.

Lemma own_get_any w who k p : own w who !! k = Some p -> get w who k = value p.
Proof.
  intros H. unfold get, get_value, get_prop, own in *.
  destruct who; cbn in *; now rewrite H.
Qed.

(** What a settings read depends on. *)
Lemma get_ext w w' who k :
  (forall who', own w' who' !! k = own w who' !! k) ->
  mounted w' = mounted w -> anc_settings w' = anc_settings w ->
  get w' who k = get w who k.
Proof.
  intros Ho Hm Ha. unfold get, get_value, get_prop.
  pose proof (Ho Sub) as Hs. pose proof (Ho Parent) as Hp.
  unfold own in Hs, Hp. cbn in Hs, Hp. now rewrite Hs, Hp, Hm, Ha.
Qed.

(** [set] step by step. *)
Lemma set_unfold who k v w :
  set pc who k v w
  = match assign who k v w with
    | (w1, Throw e) => (w1, Throw e)
    | (w1, Ret _) =>
        if String.eqb k "etag" then
          match compileETag v with
          | Ret fn => assign who "etag fn" fn w1
          | Throw e => (w1, Throw e)
          end
        else if String.eqb k "query parser" then
          match compileQueryParser v with
          | Ret fn => assign who "query parser fn" fn w1
          | Throw e => (w1, Throw e)
          end
        else if String.eqb k "trust proxy" then
          match compileTrust pc v with
          | Ret fn =>
              match assign who "trust proxy fn" (VFun fn) w1 with
              | (w2, Ret _) =>
                  defineProperty who trustProxyDefaultSymbol (VBool false) w2
              | (w2, Throw e) => (w2, Throw e)
              end
          | Throw e => (w1, Throw e)
          end
        else (w1, Ret tt)
    end.
Proof.
  unfold set, bindS, lift, ret.
  destruct (assign who k v w) as [w1 [[]|e]]; [|reflexivity].
  destruct (String.eqb k "etag"); [now destruct (compileETag v)|].
  destruct (String.eqb k "query parser"); [now destruct (compileQueryParser v)|].
  destruct (String.eqb k "trust proxy"); [|reflexivity].
  destruct (compileTrust pc v); [|reflexivity].
  now destruct (assign who "trust proxy fn" (VFun a) w1) as [w2 [[]|e]].
Qed.

Lemma assign_other who k v w who' :
  who' <> who -> app (fst (assign who k v w)) who' = app w who'.
Proof.
  intros H. unfold assign.
  destruct (get_prop w who k) as [[pv []]|]; cbn [writable fst]; try reflexivity;
    destruct who, who'; cbn; congruence.
Qed.

Lemma defineProperty_other who k v w who' :
  who' <> who -> app (fst (defineProperty who k v w)) who' = app w who'.
Proof.
  intros H. unfold defineProperty. cbn [fst]. destruct who, who'; cbn; congruence.
Qed.

(** A [set] on one application leaves the other as it was. *)
Lemma set_other who k v w who' :
  who' <> who -> app (fst (set pc who k v w)) who' = app w who'.
Proof.
  intros H. rewrite set_unfold.
  pose proof (assign_other who k v w who' H) as H1.
  destruct (assign who k v w) as [w1 [[]|e]]; cbn [fst] in *; [|exact H1].
  destruct (String.eqb k "etag").
  { destruct (compileETag v) as [fn|e]; [|exact H1].
    rewrite assign_other by exact H. exact H1. }
  destruct (String.eqb k "query parser").
  { destruct (compileQueryParser v) as [fn|e]; [|exact H1].
    rewrite assign_other by exact H. exact H1. }
  destruct (String.eqb k "trust proxy"); [|exact H1].
  destruct (compileTrust pc v) as [fn|e]; [|exact H1].
  pose proof (assign_other who "trust proxy fn" (VFun fn) w1 who' H) as H2.
  destruct (assign who "trust proxy fn" (VFun fn) w1) as [w2 [[]|e]];
    cbn [fst] in *; [|congruence].
  rewrite defineProperty_other by exact H. congruence.
Qed.

Lemma assign_ret who k v w w' u :
  assign who k v w = (w', Ret u) ->
  own w' who !! k = Some {| value := v; writable := true |}
  /\ (forall who' j, who' <> who \/ j <> k -> own w' who' !! j = own w who' !! j).
Proof.
  intros H. destruct u. split; [now apply (assign_stores who k v w)|].
  intros who' j Hj. pose proof (assign_frame who k v w who' j Hj) as F.
  now rewrite H in F.
Qed.

(** A [set] that returns has stored the value under the key, as an own,
    writable property, and for a key with a compiled companion has
    stored the compiled value under the companion. *)
Lemma set_ret who k v w w' :
  set pc who k v w = (w', Ret tt) ->
  own w' who !! k = Some {| value := v; writable := true |}
  /\ (forall ck, compiled_key k = Some ck ->
        exists fn, compile pc k v = Ret fn
                   /\ own w' who !! ck = Some {| value := fn; writable := true |}).
Proof.
  rewrite set_unfold. destruct (assign who k v w) as [w1 [[]|e]] eqn:E1; [|discriminate].
  apply assign_ret in E1 as [Hk _]. unfold compiled_key, compile.
  destruct (String.eqb_spec k "etag") as [-> | N1].
  { destruct (compileETag v) as [fn|e]; [|discriminate]. intros E2.
    apply assign_ret in E2 as [Hfn Hfr]. split.
    - rewrite Hfr; [exact Hk | right; discriminate].
    - intros ck [= <-]. eauto. }
  destruct (String.eqb_spec k "query parser") as [-> | N2].
  { destruct (compileQueryParser v) as [fn|e]; [|discriminate]. intros E2.
    apply assign_ret in E2 as [Hfn Hfr]. split.
    - rewrite Hfr; [exact Hk | right; discriminate].
    - intros ck [= <-]. eauto. }
  destruct (String.eqb_spec k "trust proxy") as [-> | N3].
  { destruct (compileTrust pc v) as [fn|e]; [|discriminate].
    destruct (assign who "trust proxy fn" (VFun fn) w1) as [w2 [[]|e]] eqn:E2;
      [|discriminate].
    apply assign_ret in E2 as [Hfn Hfr]. intros E3.
    pose proof (defineProperty_frame who trustProxyDefaultSymbol (VBool false) w2 who)
      as F. rewrite E3 in F. cbn [fst] in F. split.
    - rewrite F by (right; discriminate). rewrite Hfr; [exact Hk | right; discriminate].
    - intros ck [= <-]. exists (VFun fn). split; [reflexivity|].
      rewrite F by (right; discriminate). exact Hfn. }
  intros [= <-]. split; [exact Hk | discriminate].
Qed.

End SettingsMore.



(** X12: After [app.set] has returned for "etag", "query parser" or "trust
    proxy", [app.get] of the compiled key ("etag fn", "query parser fn",
    "trust proxy fn") gives what the compiler made of the value just
    written; for "trust proxy" the compiled value is a function. *)
Theorem set_compiles (pc : jsval -> outcome trust_fn) (who : app_id)
    (k ck : string) (v : jsval) (w w' : world) :
  compiled_key k = Some ck ->
  set pc who k v w = (w', Ret tt) ->
  exists fn, compile pc k v = Ret fn
             /\ get w' who ck = fn
             /\ get w' who k = v
             /\ (k = "trust proxy" -> is_function fn = true).
Proof.
  intros Hck H. apply set_ret in H as [Hk Hc].
  destruct (Hc ck Hck) as (fn & Hfn & Hown).
  exists fn. split; [exact Hfn|].
  rewrite (own_get_any _ _ _ _ Hown), (own_get_any _ _ _ _ Hk).
  split; [reflexivity|]. split; [reflexivity|].
  intros ->. unfold compile in Hfn. cbn in Hfn.
  destruct (compileTrust pc v); [|discriminate]. now injection Hfn as <-.
Qed.

(** X12, an instance: the compiled keys of "etag" and "trust proxy" after a [set]
    that returned. *)
Lemma set_compiles_witness :
  (exists fn, compile listed_compile "etag" (VStr "strong") = Ret fn
              /\ get (fst (set listed_compile Sub "etag" (VStr "strong") two_apps))
                   Sub "etag fn" = fn
              /\ get (fst (set listed_compile Sub "etag" (VStr "strong") two_apps))
                   Sub "etag" = VStr "strong"
              /\ ("etag" = "trust proxy" -> is_function fn = true))
  /\ (exists fn, compile listed_compile "trust proxy" (VNum (of_Z 1)) = Ret fn
              /\ get (fst (set listed_compile Sub "trust proxy" (VNum (of_Z 1)) two_apps))
                   Sub "trust proxy fn" = fn
              /\ get (fst (set listed_compile Sub "trust proxy" (VNum (of_Z 1)) two_apps))
                   Sub "trust proxy" = VNum (of_Z 1)
              /\ ("trust proxy" = "trust proxy" -> is_function fn = true)).
Proof.
  split.
  - refine (set_compiles listed_compile Sub "etag" "etag fn" (VStr "strong") two_apps
              (fst (set listed_compile Sub "etag" (VStr "strong") two_apps))
              eq_refl _).
    vm_compute; reflexivity.
  - refine (set_compiles listed_compile Sub "trust proxy" "trust proxy fn"
              (VNum (of_Z 1)) two_apps
              (fst (set listed_compile Sub "trust proxy" (VNum (of_Z 1)) two_apps))
              eq_refl _).
    vm_compute; reflexivity.
Defined.

(** X13: When the compiler of "etag", "query parser" or "trust proxy" throws
    on the value, [app.set] throws the same exception after the value
    has been stored: [app.get] of the setting then gives the rejected
    value, while the compiled key and every other setting, those of the
    other application included, are as before the call.  (The
    assignment of the value itself is taken to succeed.) *)
Theorem set_compile_failure (pc : jsval -> outcome trust_fn) (who : app_id)
    (k ck : string) (v : jsval) (e : exn) (w : world) :
  compiled_key k = Some ck ->
  snd (assign who k v w) = Ret tt ->
  compile pc k v = Throw e ->
  let w' := fst (set pc who k v w) in
  set pc who k v w = (w', Throw e)
  /\ get w' who k = v
  /\ get w' who ck = get w who ck
  /\ (forall who' j, who' <> who \/ j <> k -> own w' who' !! j = own w who' !! j)
  /\ mounted w' = mounted w.
Proof.
  intros Hck Ha Hc. cbv zeta.
  assert (Hne : ck <> k).
  { unfold compiled_key in Hck.
    destruct (String.eqb_spec k "etag") as [-> | ?]; [now injection Hck as <-|].
    destruct (String.eqb_spec k "query parser") as [-> | ?]; [now injection Hck as <-|].
    destruct (String.eqb_spec k "trust proxy") as [-> | ?]; [now injection Hck as <-|].
    discriminate. }
  assert (Hset : set pc who k v w = (fst (assign who k v w), Throw e)).
  { rewrite set_unfold. destruct (assign who k v w) as [w1 [[]|e1]]; [|discriminate].
    cbn [fst]. unfold compiled_key, compile in *.
    destruct (String.eqb k "etag"); [now rewrite Hc|].
    destruct (String.eqb k "query parser"); [now rewrite Hc|].
    destruct (String.eqb k "trust proxy"); [|discriminate].
    destruct (compileTrust pc v); [discriminate|]. cbn in Hc. congruence. }
  rewrite Hset. cbn [fst].
  destruct (assign who k v w) as [w1 [[]|e1]] eqn:E1; [|discriminate]. cbn [fst].
  pose proof (assign_rest who k v w) as [Hm Hanc]. rewrite E1 in Hm, Hanc.
  cbn [fst] in Hm, Hanc.
  apply assign_ret in E1 as [Hk Hfr].
  split; [reflexivity|]. split; [now rewrite (own_get_any _ _ _ _ Hk)|].
  split; [|split; [exact Hfr | exact Hm]].
  apply get_ext; [|exact Hm | exact Hanc].
  intros who'. apply Hfr. now right.
Qed.

(** X13, an instance: an etag mode that [compileETag] does not know. *)
Lemma set_compile_failure_witness :
  let w' := fst (set listed_compile Sub "etag" (VStr "bogus") two_apps) in
  get w' Sub "etag" = VStr "bogus"
  /\ get w' Sub "etag fn" = VFun (FOpaque "wetag").
Proof.
  assert (Ha : snd (assign Sub "etag" (VStr "bogus") two_apps) = Ret tt)
    by (vm_compute; reflexivity).
  pose proof (set_compile_failure listed_compile Sub "etag" "etag fn" (VStr "bogus")
                (TypeError "unknown value for etag function: ") two_apps
                eq_refl Ha eq_refl) as (_ & H1 & H2 & _).
  cbv zeta. split; [exact H1|]. rewrite H2. vm_compute; reflexivity.
Defined.

(** X14: Two applications do not see each other's settings unless one is
    mounted under the other: a [set] on the sub-application never
    changes what the parent reads, for any setting, mounted or not; and
    while the sub-application is not mounted, a [set] on the parent
    never changes what the sub-application reads. *)
Theorem set_isolation (pc : jsval -> outcome trust_fn)
    (k : string) (v : jsval) (w : world) (j : string) :
  get (fst (set pc Sub k v w)) Parent j = get w Parent j
  /\ parent (fst (set pc Sub k v w)) = parent w
  /\ (mounted w = false -> get (fst (set pc Parent k v w)) Sub j = get w Sub j).
Proof.
  split; [|split].
  - unfold get, get_value, get_prop.
    pose proof (set_frame pc Sub k v w Parent j) as F. unfold own in F. cbn in F.
    rewrite F by (left; discriminate).
    destruct (set_rest pc Sub k v w) as [_ ->]. reflexivity.
  - apply (set_other pc Sub k v w Parent). discriminate.
  - intros Hm. unfold get, get_value, get_prop.
    pose proof (set_frame pc Parent k v w Sub j) as F. unfold own in F. cbn in F.
    rewrite F by (left; discriminate).
    destruct (set_rest pc Parent k v w) as [-> _]. now rewrite Hm.
Qed.

(** X14, an instance: two new applications; a setting of one is not seen by
    the other. *)
Lemma set_isolation_witness :
  get (fst (set listed_compile Sub "views" (VStr "/srv/sub") two_apps)) Parent "views"
  = get two_apps Parent "views"
  /\ get (fst (set listed_compile Parent "views" (VStr "/srv/top") two_apps)) Sub "views"
     = get two_apps Sub "views".
Proof.
  split.
  - exact (proj1 (set_isolation listed_compile "views" (VStr "/srv/sub") two_apps
                    "views")).
  - refine (proj2 (proj2 (set_isolation listed_compile "views" (VStr "/srv/top")
                            two_apps "views")) _).
    vm_compute; reflexivity.
Defined.



(** X16: The marker of the trust-proxy default cannot be written with
    [app.set]: on a sub-application made by [init], after any sets and
    mounts, [app.set] of the marker's key throws a TypeError and leaves
    every setting as it was. *)
Theorem marker_read_only (pc : jsval -> outcome trust_fn) (env views : string)
    (w00 w0 : world) (ops : list (op)) (v : jsval) :
  init pc env views Sub w00 = (w0, Ret tt) ->
  let w := run pc ops w0 in
  exists msg, set pc Sub trustProxyDefaultSymbol v w = (w, Throw (TypeError msg)).
Proof.
  intros Hi. cbv zeta. apply init_marker in Hi.
  destruct (run_created pc ops w0 (ex_intro _ true Hi)) as [b Hb].
  unfold marker_is, marker in Hb.
  rewrite set_unfold. unfold assign.
  assert (get_prop (run pc ops w0) Sub trustProxyDefaultSymbol
          = Some {| value := VBool b; writable := false |}) as ->.
  { unfold get_prop. now rewrite Hb. }
  cbn. eauto.
Qed.

(** X16, an instance: a new application after its "trust proxy" has been set. *)
Lemma marker_read_only_witness :
  (exists msg,
     set listed_compile Sub trustProxyDefaultSymbol (VBool true)
       (run listed_compile [OpSet Sub "trust proxy" (VBool true)]
          (fst (init listed_compile "development" "/srv/views" Sub empty_world)))
     = (run listed_compile [OpSet Sub "trust proxy" (VBool true)]
          (fst (init listed_compile "development" "/srv/views" Sub empty_world)),
        Throw (TypeError msg))).
Proof.
  refine (marker_read_only listed_compile "development" "/srv/views" empty_world
            (fst (init listed_compile "development" "/srv/views" Sub empty_world))
            [OpSet Sub "trust proxy" (VBool true)] (VBool true) _).
  vm_compute; reflexivity.
Defined.







(** ** Properties of the view lookup *)

Section LookupFacts.

Variable path_extname : string -> string.
Variable path_dirname : string -> string.
Variable path_basename : string -> string.
Variable path_basename_ext : string -> string -> string.
Variable path_join2 : string -> string -> string.
Variable path_join3 : string -> string -> string -> string.
Variable path_resolve : jsval -> string -> outcome string.
Variable require_express : string -> outcome (option engine_fn).
Variable ToString : jsval -> string.

Local Abbreviation View_resolve := (View_resolve path_basename_ext path_join2 path_join3).
Local Abbreviation lookup_loop :=
  (lookup_loop path_dirname path_basename path_basename_ext path_join2 path_join3
     path_resolve).
Local Abbreviation View_lookup :=
  (View_lookup path_dirname path_basename path_basename_ext path_join2 path_join3
     path_resolve).
Local Abbreviation direct := (direct path_join2).
Local Abbreviation index_of := (index_of path_basename_ext path_join3).
Local Abbreviation no_file :=
  (no_file path_dirname path_basename path_basename_ext path_join2 path_join3).

Lemma View_resolve_cases fs ext dir file :
  View_resolve fs ext dir file
  = if fs (direct dir file) then ([EvStat (direct dir file)], Ret (Some (direct dir file)))
    else match ext with
         | VStr e =>
             ([EvStat (direct dir file); EvStat (index_of dir file e)],
              Ret (if fs (index_of dir file e) then Some (index_of dir file e)
                   else None))
         | _ => ([EvStat (direct dir file)],
                 Throw (TypeError "The ext argument must be of type string"))
         end.
Proof.
  unfold View_resolve, stat_is_file, direct,
    index_of, bindR, retR, throwR.
  destruct (fs (path_join2 dir file)); [reflexivity|].
  destruct ext; try reflexivity.
  now destruct (fs (path_join3 _ _ _)).
Qed.

Lemma View_resolve_stats fs ext dir file :
  Forall (fun ev => is_stat ev = true) (fst (View_resolve fs ext dir file))
  /\ (List.length (fst (View_resolve fs ext dir file)) <= 2)%nat.
Proof.
  rewrite View_resolve_cases.
  destruct (fs (direct dir file)); [cbn; split; [repeat constructor | lia]|].
  destruct ext; cbn; split; repeat constructor.
Qed.

Lemma View_resolve_found fs ext dir file tr p :
  View_resolve fs ext dir file = (tr, Ret (Some p)) ->
  fs p = true /\ exists tr0, tr = (tr0 ++ [EvStat p])%list.
Proof.
  rewrite View_resolve_cases.
  destruct (fs (direct dir file)) eqn:E1.
  - intros [= <- <-]. split; [exact E1 | now exists []].
  - destruct ext; try discriminate.
    destruct (fs (index_of dir file s)) eqn:E2; [|discriminate].
    intros [= <- <-]. split; [exact E2 | now exists [EvStat (direct dir file)]].
Qed.

(** One round of the loop. *)
Lemma lookup_loop_cons fs ext name root roots :
  lookup_loop fs ext name (root :: roots)
  = match path_resolve root name with
    | Throw e => ([], Throw e)
    | Ret loc =>
        match View_resolve fs ext (path_dirname loc) (path_basename loc) with
        | (tr, Ret path) =>
            if truthy_str path then (tr, Ret path)
            else let (tr', r) := lookup_loop fs ext name roots in
                 ((tr ++ tr')%list, r)
        | (tr, Throw e) => (tr, Throw e)
        end
    end.
Proof.
  cbn [lookup_loop]. destruct (path_resolve root name) as [loc|e];
    [|reflexivity].
  unfold bindR.
  destruct (View_resolve fs ext (path_dirname loc) (path_basename loc))
    as [tr [path|e]]; [|reflexivity].
  destruct (truthy_str path); [|reflexivity].
  unfold retR. now rewrite app_nil_r.
Qed.

Lemma lookup_loop_stats fs ext name roots :
  Forall (fun ev => is_stat ev = true) (fst (lookup_loop fs ext name roots))
  /\ (List.length (fst (lookup_loop fs ext name roots)) <= 2 * List.length roots)%nat.
Proof.
  induction roots as [|root roots [IH1 IH2]]; [cbn; split; [constructor | lia]|].
  rewrite lookup_loop_cons. destruct (path_resolve root name) as [loc|e];
    [|cbn; split; [constructor | lia]].
  destruct (View_resolve_stats fs ext (path_dirname loc) (path_basename loc))
    as [H1 H2].
  destruct (View_resolve fs ext (path_dirname loc) (path_basename loc))
    as [tr [path|e]]; cbn [fst] in *.
  - destruct (truthy_str path); cbn [fst]; [split; [exact H1 | cbn; lia]|].
    destruct (lookup_loop fs ext name roots) as [tr' r]. cbn [fst] in *.
    split; [now apply Forall_app | rewrite length_app; cbn; lia].
  - split; [exact H1 | cbn; lia].
Qed.

Lemma lookup_loop_found fs ext name roots tr p :
  lookup_loop fs ext name roots = (tr, Ret (Some p)) ->
  p <> "" /\ fs p = true /\ exists tr0, tr = (tr0 ++ [EvStat p])%list.
Proof.
  revert tr. induction roots as [|root roots IH]; intros tr; [discriminate|].
  rewrite lookup_loop_cons. destruct (path_resolve root name) as [loc|e];
    [|discriminate].
  destruct (View_resolve fs ext (path_dirname loc) (path_basename loc))
    as [tr1 [path|e]] eqn:E; [|discriminate].
  destruct (truthy_str path) eqn:Et.
  - intros [= <- ->]. apply View_resolve_found in E as [Hf Htr].
    split; [|split; [exact Hf | exact Htr]].
    intros ->. discriminate.
  - destruct (lookup_loop fs ext name roots) as [tr' r]. intros [= <- ->].
    destruct (IH tr' eq_refl) as (Hp & Hf & tr0 & ->).
    split; [exact Hp|]. split; [exact Hf|].
    exists (tr1 ++ tr0)%list. now rewrite app_assoc.
Qed.

Lemma lookup_loop_none fs ext name roots tr o :
  lookup_loop fs ext name roots = (tr, Ret o) -> truthy_str o = false ->
  Forall (fun root => exists loc, path_resolve root name = Ret loc
                                  /\ no_file fs ext loc) roots.
Proof.
  revert tr. induction roots as [|root roots IH]; intros tr; [constructor|].
  rewrite lookup_loop_cons. destruct (path_resolve root name) as [loc|e] eqn:Er;
    [|discriminate].
  rewrite View_resolve_cases. unfold no_file.
  destruct (fs (direct (path_dirname loc) (path_basename loc))) eqn:E1.
  - cbn [truthy_str].
    destruct (String.eqb_spec (direct (path_dirname loc) (path_basename loc)) "")
      as [E0 | E0]; cbn [negb].
    + destruct (lookup_loop fs ext name roots) as [tr' r]. intros [= <- ->] Ht.
      constructor; [|now apply (IH tr')].
      exists loc. split; [exact Er|]. right. now split.
    + intros [= <- <-] Ht. cbn [truthy_str] in Ht.
      apply negb_false_iff, String.eqb_eq in Ht. contradiction.
  - destruct ext; try discriminate.
    destruct (fs (index_of _ _ s)) eqn:E2.
    + cbn [truthy_str].
      destruct (String.eqb_spec (index_of (path_dirname loc) (path_basename loc) s) "")
        as [E0 | E0]; cbn [negb].
      * destruct (lookup_loop fs (VStr s) name roots) as [tr' r].
        intros [= <- ->] Ht. constructor; [|now apply (IH tr')].
        exists loc. split; [exact Er|]. left. split; [exact E1|].
        exists s. split; [reflexivity | now right].
      * intros [= <- <-] Ht. cbn [truthy_str] in Ht.
        apply negb_false_iff, String.eqb_eq in Ht. contradiction.
    + cbn [truthy_str].
      destruct (lookup_loop fs (VStr s) name roots) as [tr' r].
      intros [= <- ->] Ht. constructor; [|now apply (IH tr')].
      exists loc. split; [exact Er|]. left. split; [exact E1|].
      exists s. split; [reflexivity | now left].
Qed.

Lemma lookup_loop_app fs ext name l1 l2 :
  lookup_loop fs ext name (l1 ++ l2)
  = match lookup_loop fs ext name l1 with
    | (tr, Ret o) =>
        if truthy_str o then (tr, Ret o)
        else let (tr', r) := lookup_loop fs ext name l2 in ((tr ++ tr')%list, r)
    | (tr, Throw e) => (tr, Throw e)
    end.
Proof.
  induction l1 as [|root l1 IH].
  - cbn. now destruct (lookup_loop fs ext name l2).
  - rewrite <- app_comm_cons, !lookup_loop_cons.
    destruct (path_resolve root name) as [loc|e]; [|reflexivity].
    destruct (View_resolve fs ext (path_dirname loc) (path_basename loc))
      as [tr1 [path|e]]; [|reflexivity].
    destruct (truthy_str path) eqn:Et; [now rewrite Et|].
    rewrite IH. destruct (lookup_loop fs ext name l1) as [tr2 [o|e]]; [|reflexivity].
    destruct (truthy_str o); [reflexivity|].
    destruct (lookup_loop fs ext name l2) as [tr3 r]. now rewrite app_assoc.
Qed.

Lemma View_lookup_stats fs ext root name :
  Forall (fun ev => is_stat ev = true) (fst (View_lookup fs ext root name))
  /\ (List.length (fst (View_lookup fs ext root name))
      <= 2 * List.length (roots_of root))%nat.
Proof. unfold View_lookup. fold (roots_of root). apply lookup_loop_stats. Qed.

(** X18: A path that [View.prototype.lookup] returns is not empty and is a
    regular file, and the last thing the lookup did was to stat it.  The
    lookup does nothing but stat, at most twice per root. *)
Theorem lookup_sound fs ext root name :
  Forall (fun ev => is_stat ev = true) (fst (View_lookup fs ext root name))
  /\ (List.length (fst (View_lookup fs ext root name))
      <= 2 * List.length (roots_of root))%nat
  /\ (forall tr p,
        View_lookup fs ext root name = (tr, Ret (Some p)) ->
        p <> "" /\ fs p = true /\ exists tr0, tr = (tr0 ++ [EvStat p])%list).
Proof.
  destruct (View_lookup_stats fs ext root name) as [H1 H2].
  split; [exact H1|]. split; [exact H2|].
  intros tr p. unfold View_lookup. apply lookup_loop_found.
Qed.

(** X19: When the lookup returns without a path, no root has a file for the
    view: for every root, [resolve(root, name)] returned, its direct
    candidate is no file, and its index candidate is no file (or has the
    empty path). *)
Theorem lookup_complete fs ext root name tr o :
  View_lookup fs ext root name = (tr, Ret o) -> truthy_str o = false ->
  Forall (fun r => exists loc, path_resolve r name = Ret loc /\ no_file fs ext loc)
    (roots_of root).
Proof. unfold View_lookup. fold (roots_of root). apply lookup_loop_none. Qed.

(** X20: The roots are tried in order and the first that has a file wins:
    the lookup over [l1 ++ l2] is the lookup over [l1] when that finds a
    path or throws, and only otherwise goes on with [l2]; a single root
    is the list of that root. *)
Theorem lookup_order fs ext name (l1 l2 : list string) :
  View_lookup fs ext (VArr (l1 ++ l2)) name
  = match View_lookup fs ext (VArr l1) name with
    | (tr, Ret o) =>
        if truthy_str o then (tr, Ret o)
        else let (tr', r) := View_lookup fs ext (VArr l2) name in
             ((tr ++ tr')%list, r)
    | (tr, Throw e) => (tr, Throw e)
    end
  /\ (forall r, View_lookup fs ext (VStr r) name = View_lookup fs ext (VArr [r]) name).
Proof.
  split; [|reflexivity].
  unfold View_lookup. rewrite map_app. apply lookup_loop_app.
Qed.

End LookupFacts.

(** X18, an instance: the view "email.html" under the root "/srv/views". *)
Lemma lookup_sound_witness :
  "/srv/views/email.html" <> "" /\ fs_email "/srv/views/email.html" = true
  /\ exists tr0, [EvStat "/srv/views/email.html"]
                 = (tr0 ++ [EvStat "/srv/views/email.html"])%list.
Proof.
  exact (proj2 (proj2 (lookup_sound ex_dirname ex_basename ex_basename_ext ex_join2
                         ex_join3 ex_resolve fs_email (VStr ".html")
                         (VStr "/srv/views") "email.html"))
           [EvStat "/srv/views/email.html"] "/srv/views/email.html" eq_refl).
Defined.

(** X19, an instance: the same view where no file exists. *)
Lemma lookup_complete_witness :
  Forall (fun r => exists loc,
            ex_resolve r "email.html" = Ret loc
            /\ no_file ex_dirname ex_basename ex_basename_ext ex_join2 ex_join3
                 fs_none (VStr ".html") loc)
    (roots_of (VArr ["/srv/a"; "/srv/b"])).
Proof.
  exact (lookup_complete ex_dirname ex_basename ex_basename_ext ex_join2 ex_join3
           ex_resolve fs_none (VStr ".html") (VArr ["/srv/a"; "/srv/b"]) "email.html"
           [EvStat "/srv/a/email.html"; EvStat "/srv/a/email/index.html";
            EvStat "/srv/b/email.html"; EvStat "/srv/b/email/index.html"]
           None eq_refl eq_refl).
Defined.

(** ** Properties of views, engines and [app.render] *)

Section ViewFacts.

Variable path_extname : string -> string.
Variable path_dirname : string -> string.
Variable path_basename : string -> string.
Variable path_basename_ext : string -> string -> string.
Variable path_join2 : string -> string -> string.
Variable path_join3 : string -> string -> string -> string.
Variable path_resolve : jsval -> string -> outcome string.
Variable require_express : string -> outcome (option engine_fn).
Variable ToString : jsval -> string.

Local Abbreviation render :=
  (render path_extname path_dirname path_basename path_basename_ext
     path_join2 path_join3 path_resolve require_express ToString).

Local Abbreviation View :=
  (View path_extname path_dirname path_basename path_basename_ext
     path_join2 path_join3 path_resolve require_express ToString).

Local Abbreviation View_lookup :=
  (View_lookup path_dirname path_basename path_basename_ext path_join2 path_join3
     path_resolve).

(** The view of a name that has an extension. *)
Lemma View_with_ext fs name de root engines e :
  path_extname name = e -> e <> "" ->
  View fs name de root engines
  = let finish (fn : engine_fn) : R view :=
      bindR (View_lookup fs (VStr e) root name)
        (fun path => retR {| v_defaultEngine := de; v_ext := VStr e; v_name := name;
                             v_root := root; v_engine := fn; v_path := path |}) in
    match engines e with
    | Some fn => ([], finish fn)
    | None =>
        match require_express (sdrop 1 e) with
        | Throw err => ([], ([EvRequire (sdrop 1 e)], Throw err))
        | Ret None =>
            ([], ([EvRequire (sdrop 1 e)],
                  Throw (Error ("Module " +:+ dquote +:+ sdrop 1 e +:+ dquote
                                +:+ " does not provide a view engine."))))
        | Ret (Some fn) => ([(e, fn)], bindR ([EvRequire (sdrop 1 e)], Ret fn) finish)
        end
    end.
Proof.
  intros He Hne. unfold Application.View. rewrite He. cbn [truthy].
  destruct (String.eqb_spec e ""); [contradiction|]. cbn [negb andb to_string].
  destruct (engines e) as [fn|].
  - cbn [fst snd]. unfold bindR, retR.
    destruct (View_lookup fs (VStr e) root name) as [tr [p|err]]; reflexivity.
  - destruct (require_express (sdrop 1 e)) as [[fn|]|err]; reflexivity.
Qed.

(** The view of a name that has no extension, with a default engine
    that is a non-empty string; [e] is its extension. *)
Lemma View_without_ext fs name d root engines e :
  path_extname name = "" -> d <> "" ->
  e = (if starts_with d "." then d else "." +:+ d) ->
  View fs name (VStr d) root engines
  = let finish (fn : engine_fn) : R view :=
      bindR (View_lookup fs (VStr e) root (name +:+ e))
        (fun path => retR {| v_defaultEngine := VStr d; v_ext := VStr e;
                             v_name := name; v_root := root; v_engine := fn;
                             v_path := path |}) in
    match engines e with
    | Some fn => ([], finish fn)
    | None =>
        match require_express (sdrop 1 e) with
        | Throw err => ([], ([EvRequire (sdrop 1 e)], Throw err))
        | Ret None =>
            ([], ([EvRequire (sdrop 1 e)],
                  Throw (Error ("Module " +:+ dquote +:+ sdrop 1 e +:+ dquote
                                +:+ " does not provide a view engine."))))
        | Ret (Some fn) => ([(e, fn)], bindR ([EvRequire (sdrop 1 e)], Ret fn) finish)
        end
    end.
Proof.
  intros He Hd ->. unfold Application.View. rewrite He. cbn [truthy].
  destruct (String.eqb_spec d ""); [contradiction|].
  cbn [String.eqb negb andb index0_is_dot].
  destruct (starts_with d "."); cbn [negb to_string].
  - destruct (engines d) as [fn|].
    + cbn [fst snd]. unfold bindR, retR.
      destruct (View_lookup fs (VStr d) root (name +:+ d)) as [tr [p|err]];
        reflexivity.
    + destruct (require_express (sdrop 1 d)) as [[fn|]|err]; reflexivity.
  - destruct (engines ("." +:+ d)) as [fn|].
    + cbn [fst snd]. unfold bindR, retR.
      destruct (View_lookup fs (VStr ("." +:+ d)) root (name +:+ ("." +:+ d)))
        as [tr [p|err]]; reflexivity.
    + destruct (require_express (sdrop 1 ("." +:+ d))) as [[fn|]|err]; reflexivity.
Qed.

(** X21: For a view name without an extension, the "view engine" setting
    gives the extension: a dot is put before it unless it starts with
    one, so "pug" and ".pug" make the same view; the file looked up is
    the name with that extension appended, and the engine, when none is
    registered for the extension, is the module named by the extension
    without its dot. *)
Theorem View_default_engine fs name d root engines :
  path_extname name = "" -> d <> "" ->
  let e := if starts_with d "." then d else "." +:+ d in
  let r1 := View fs name (VStr d) root engines in
  let r2 := View fs name (VStr e) root engines in
  fst r1 = fst r2
  /\ fst (snd r1) = fst (snd r2)
  /\ match snd (snd r1), snd (snd r2) with
     | Ret v1, Ret v2 =>
         v_ext v1 = VStr e /\ v_ext v2 = VStr e /\ v_name v1 = name
         /\ v_path v1 = v_path v2 /\ v_engine v1 = v_engine v2
         /\ snd (View_lookup fs (VStr e) root (name +:+ e)) = Ret (v_path v1)
     | Throw e1, Throw e2 => e1 = e2
     | _, _ => False
     end
  /\ (engines e = None ->
      exists tr, fst (snd r1) = (EvRequire (sdrop 1 e) :: tr)).
Proof.
  intros He Hd. cbv zeta.
  set (e := if starts_with d "." then d else "." +:+ d).
  assert (Hdot : starts_with e "." = true).
  { unfold e. destruct (starts_with d ".") eqn:E; [exact E | reflexivity]. }
  assert (Hne : e <> "") by (intros E; rewrite E in Hdot; discriminate).
  rewrite (View_without_ext fs name d root engines e He Hd eq_refl).
  rewrite (View_without_ext fs name e root engines e He Hne)
    by (now rewrite Hdot).
  cbv zeta. destruct (engines e) as [fn|].
  - cbn [fst snd]. unfold bindR, retR.
    destruct (View_lookup fs (VStr e) root (name +:+ e)) as [tr [p|err]];
      cbn [fst snd].
    + repeat split; eauto. discriminate.
    + repeat split. discriminate.
  - destruct (require_express (sdrop 1 e)) as [[fn|]|err]; cbn [fst snd].
    + unfold bindR, retR.
      destruct (View_lookup fs (VStr e) root (name +:+ e)) as [tr [p|err]];
        cbn [fst snd app].
      * repeat split; eauto.
      * repeat split; eauto.
    + repeat split; eauto.
    + repeat split; eauto.
Qed.

Lemma register_engines_nil who w : register_engines who [] w = w.
Proof.
  unfold register_engines. cbn [fold_left].
  destruct w as [[] [] ? ? ?], who; reflexivity.
Qed.

Lemma render_miss fs w who name args :
  caching w who args = false \/ cache_get (cache (app w who)) name = None ->
  render fs w who name args
  = let done := args_done args in
    let ro := render_options w who (args_options args) in
    let '(regs, made) :=
      View fs name (get w who "view engine") (get w who "views")
        (engines_lookup w who) in
    let w1 := register_engines who regs w in
    match made with
    | (tr, Throw e) => {| r_world := w1; r_views_made := 1; r_run := (tr, Throw e) |}
    | (tr, Ret view) =>
        if negb (truthy_str (v_path view)) then
          {| r_world := w1; r_views_made := 1;
             r_run := bindR (tr, Ret tt)
                        (fun _ => done (CbErr (Error (lookup_error ToString name
                                                        (v_root view))))) |}
        else
          {| r_world := if caching w who args then prime who name view w1 else w1;
             r_views_made := 1;
             r_run := bindR (tr, Ret tt) (fun _ => tryRender (CView view) ro done) |}
    end.
Proof.
  intros H. unfold Application.render, caching in *.
  destruct (truthy (field (render_options w who (args_options args)) "cache"));
    [destruct H as [H | ->]; [discriminate|] |]; reflexivity.
Qed.


Lemma engines_lookup_own w who k fn :
  engines (app w who) !! k = Some fn -> engines_lookup w who k = Some fn.
Proof.
  intros H. unfold engines_lookup. destruct who; cbn in H; now rewrite H.
Qed.

Lemma engines_lookup_none w who k :
  engines_lookup w who k = None -> engines (app w who) !! k = None.
Proof.
  unfold engines_lookup. destruct who; cbn;
    destruct (engines _ !! k); [discriminate | reflexivity | discriminate | reflexivity].
Qed.

Lemma register_engines_one who k fn w :
  engines (app (register_engines who [(k, fn)] w) who) = <[k := fn]> (engines (app w who))
  /\ (forall who', who' <> who ->
        app (register_engines who [(k, fn)] w) who' = app w who')
  /\ mounted (register_engines who [(k, fn)] w) = mounted w
  /\ anc_engines (register_engines who [(k, fn)] w) = anc_engines w.
Proof.
  unfold register_engines. cbn [fold_left fst snd].
  destruct who; cbn.
  - split; [reflexivity|]. split; [|split; reflexivity].
    intros [] H; [congruence | reflexivity].
  - split; [reflexivity|]. split; [|split; reflexivity].
    intros [] H; [reflexivity | congruence].
Qed.

Lemma engines_lookup_registered who k fn w :
  engines_lookup (register_engines who [(k, fn)] w) who k = Some fn
  /\ (forall j, j <> k ->
        engines_lookup (register_engines who [(k, fn)] w) who j
        = engines_lookup w who j).
Proof.
  destruct (register_engines_one who k fn w) as (He & Ho & Hm & Ha).
  split.
  - apply engines_lookup_own. rewrite He. apply lookup_insert_eq.
  - intros j Hj. unfold engines_lookup. rewrite Hm, Ha.
    destruct who.
    + pose proof (Ho Parent ltac:(discriminate)) as Hp. cbn [app] in He, Hp.
      rewrite He, Hp, lookup_insert_ne by congruence. reflexivity.
    + cbn [app] in He. rewrite He, lookup_insert_ne by congruence. reflexivity.
Qed.

(** A view made with an engine that is registered: no module is
    loaded. *)
Lemma View_registered fs name de root engines e fn :
  path_extname name = e -> e <> "" -> engines e = Some fn ->
  exists tr res,
    View fs name de root engines = ([], (tr, res))
    /\ Forall (fun ev => is_stat ev = true) tr
    /\ (forall v, res = Ret v -> v_engine v = fn /\ v_ext v = VStr e).
Proof.
  intros He Hne Hf. rewrite (View_with_ext _ _ _ _ _ _ He Hne), Hf. cbv zeta.
  pose proof (proj1 (View_lookup_stats path_dirname path_basename path_basename_ext
                       path_join2 path_join3 path_resolve fs (VStr e) root name)) as Hs.
  destruct (View_lookup fs (VStr e) root name) as [tr [p|err]]; cbn [fst] in Hs.
  - eexists _, _. split; [reflexivity|]. cbn. rewrite app_nil_r.
    split; [exact Hs|]. intros v [= <-]. now split.
  - eexists _, _. split; [reflexivity|]. split; [exact Hs | discriminate].
Qed.

(** X23: [app.engine(ext, fn)] registers [fn] under the extension with a
    leading dot, added when [ext] has none, and leaves the other
    extensions as they were; afterwards a view whose name has that
    extension is made with [fn] as its engine, and making it loads no
    module: it does nothing but stat.  An engine registered on the
    parent is found by a mounted sub-application that has none of its own
    for the extension. *)
Theorem engine_registered who ext fn w :
  let key := if starts_with ext "." then ext else "." +:+ ext in
  let w' := engine who ext fn w in
  engines_lookup w' who key = Some fn
  /\ (forall k, k <> key -> engines_lookup w' who k = engines_lookup w who k)
  /\ engine who key fn w = w'
  /\ (forall fs name de root,
        path_extname name = key ->
        exists tr res,
          View fs name de root (engines_lookup w' who) = ([], (tr, res))
          /\ Forall (fun ev => is_stat ev = true) tr
          /\ (forall v, res = Ret v -> v_engine v = fn /\ v_ext v = VStr key))
  /\ (mounted w = true -> engines (sub w) !! key = None ->
      engines_lookup (engine Parent ext fn w) Sub key = Some fn).
Proof.
  cbv zeta. set (key := if starts_with ext "." then ext else "." +:+ ext).
  assert (Hk : starts_with key "." = true).
  { unfold key. destruct (starts_with ext ".") eqn:E; [exact E | reflexivity]. }
  assert (Hne : key <> "") by (intros E; rewrite E in Hk; discriminate).
  assert (He : forall who0, engine who0 ext fn w = register_engines who0 [(key, fn)] w).
  { intros who0. unfold engine, key. now destruct (starts_with ext "."). }
  rewrite !He. destruct (engines_lookup_registered who key fn w) as [H1 H2].
  split; [exact H1|]. split; [exact H2|]. split; [|split].
  - unfold engine. now rewrite Hk.
  - intros fs name de root Hn. now apply View_registered.
  - intros Hm Hs. destruct (register_engines_one Parent key fn w) as (E1 & E2 & E3 & _).
    unfold engines_lookup. rewrite E3, Hm.
    pose proof (E2 Sub ltac:(discriminate)) as E4. cbn [app] in E1, E4.
    rewrite E4, Hs, E1, lookup_insert_eq. reflexivity.
Qed.


(** What the constructor stores in [opts.engines]: nothing, or one
    engine under a key that had none. *)
Lemma View_regs fs name de root engines regs made :
  View fs name de root engines = (regs, made) ->
  regs = [] \/ exists k fn, regs = [(k, fn)] /\ engines k = None.
Proof.
  unfold Application.View.
  destruct (negb (truthy (VStr (path_extname name))) && negb (truthy de));
    [intros [= <- _]; now left|].
  destruct (if negb (truthy (VStr (path_extname name))) then _ else _) as [ext fileName].
  destruct (engines (to_string ToString ext)) as [fn|] eqn:E;
    [intros [= <- _]; now left|].
  destruct ext; try (intros [= <- _]; now left).
  destruct (require_express (sdrop 1 s)) as [[fn|]|err]; intros [= <- _]; eauto.
Qed.



(** X26: The options an engine gets.  For every field, the value given in
    the options of the call wins over the one in [options._locals], and
    that over the one in [app.locals]; the field [cache] is the "view
    cache" setting, as a boolean, when none of them gives it a value
    other than [null] and [undefined].  (The field [_locals] itself is
    kept apart in the model.) *)
Theorem render_options_precedence w who opts k :
  let merged :=
    match fields opts !! k with
    | Some v => Some v
    | None =>
        match o_locals opts with
        | Some l => match l !! k with
                    | Some v => Some v
                    | None => locals (app w who) !! k
                    end
        | None => locals (app w who) !! k
        end
    end in
  fields (render_options w who opts) !! k
  = if String.eqb k "cache"
       && nullish (match merged with Some v => v | None => VUndefined end)
    then Some (VBool (enabled w who "view cache"))
    else merged.
Proof.
  cbv zeta. unfold render_options, merge.
  set (base := match o_locals opts with
               | Some l => l ∪ (locals (app w who) ∪ ∅)
               | None => locals (app w who) ∪ ∅
               end).
  assert (Hbase : forall j, base !! j
                  = match o_locals opts with
                    | Some l => match l !! j with
                                | Some v => Some v
                                | None => locals (app w who) !! j
                                end
                    | None => locals (app w who) !! j
                    end).
  { intros j. unfold base. rewrite (right_id_L ∅ (∪)).
    destruct (o_locals opts) as [l|]; [|reflexivity].
    destruct (l !! j) as [v|] eqn:E.
    - now apply lookup_union_Some_l.
    - now apply lookup_union_r. }
  assert (Hm : forall j, (fields opts ∪ base) !! j
               = match fields opts !! j with
                 | Some v => Some v
                 | None => base !! j
                 end).
  { intros j. destruct (fields opts !! j) as [v|] eqn:E.
    - now apply lookup_union_Some_l.
    - now apply lookup_union_r. }
  unfold field. cbn [fields]. rewrite (Hm "cache"), (Hbase "cache").
  pose proof (Hm k) as Hk. rewrite (Hbase k) in Hk.
  destruct (String.eqb_spec k "cache") as [-> | Hne]; cbn [andb].
  - set (m := match fields opts !! "cache" with
              | Some v => Some v
              | None => _
              end) in *.
    destruct m as [v|].
    + destruct (nullish v); cbn [fields]; [apply lookup_insert_eq | exact Hk].
    + cbn [nullish fields]. apply lookup_insert_eq.
  - destruct (nullish _); cbn [fields]; [|exact Hk].
    rewrite lookup_insert_ne by congruence. exact Hk.
Qed.

(** X27: [app.render] only adds: the settings and the locals of both
    applications, the mount, and everything of the other application are
    untouched; the render cache and the engines of the rendering
    application keep every entry they had, with the same value. *)
Theorem render_only_adds fs w who name args :
  let w' := r_world (render fs w who name args) in
  (forall who', settings (app w' who') = settings (app w who')
                /\ locals (app w' who') = locals (app w who'))
  /\ mounted w' = mounted w
  /\ (forall who', who' <> who -> app w' who' = app w who')
  /\ cache (app w who) ⊆ cache (app w' who)
  /\ engines (app w who) ⊆ engines (app w' who).
Proof.
  cbv zeta.
  assert (Hreg : forall regs,
            (regs = [] \/ exists k fn, regs = [(k, fn)] /\ engines_lookup w who k = None) ->
            (forall who', settings (app (register_engines who regs w) who')
                          = settings (app w who')
                          /\ locals (app (register_engines who regs w) who')
                             = locals (app w who'))
            /\ mounted (register_engines who regs w) = mounted w
            /\ (forall who', who' <> who ->
                  app (register_engines who regs w) who' = app w who')
            /\ cache (app (register_engines who regs w) who) = cache (app w who)
            /\ engines (app w who) ⊆ engines (app (register_engines who regs w) who)).
  { intros regs Hregs.
    destruct (register_engines_rest who regs w) as (H1 & H2 & _).
    split; [intros who'; destruct (H1 who') as (? & ? & ?); now split|].
    split; [exact H2|].
    destruct Hregs as [-> | (k & fn & -> & Hn)].
    - rewrite register_engines_nil. auto.
    - destruct (register_engines_one who k fn w) as (E1 & E2 & _).
      split; [exact E2|]. split; [apply register_engines_cache|].
      rewrite E1. apply insert_subseteq. now apply engines_lookup_none. }
  assert (Hprime : forall v w1,
            cache (app w1 who) !! name = None ->
            (forall who', settings (app (prime who name v w1) who')
                          = settings (app w1 who')
                          /\ locals (app (prime who name v w1) who')
                             = locals (app w1 who'))
            /\ mounted (prime who name v w1) = mounted w1
            /\ (forall who', who' <> who -> app (prime who name v w1) who' = app w1 who')
            /\ cache (app w1 who) ⊆ cache (app (prime who name v w1) who)
            /\ engines (app (prime who name v w1) who) = engines (app w1 who)).
  { intros v w1 Hn. destruct (prime_rest who name v w1) as (H1 & H2 & _).
    split; [exact H1|]. split; [exact H2|].
    split; [intros who' Hw; unfold prime; destruct who, who'; cbn; congruence|].
    split; [rewrite prime_cache; now apply insert_subseteq|].
    unfold prime. now destruct who. }
  destruct (caching w who args) eqn:Ec;
    [destruct (cache_get (cache (app w who)) name) as [entry|] eqn:Eg|].
  - assert (r_world (render fs w who name args) = w) as ->.
    { unfold render. unfold caching in Ec. now rewrite Ec, Eg. }
    repeat split; reflexivity.
  - rewrite (render_miss _ _ _ _ _ (or_intror Eg)). cbv zeta. rewrite Ec.
    destruct (View fs name _ _ _) as [regs made] eqn:Ev.
    destruct (Hreg regs (View_regs _ _ _ _ _ _ _ Ev)) as (R1 & R2 & R3 & R4 & R5).
    destruct made as [tr [v|err]]; [|cbn [r_world]; rewrite R4; auto].
    destruct (negb (truthy_str (v_path v))); cbn [r_world]; [rewrite R4; auto|].
    assert (Hn : cache (app (register_engines who regs w) who) !! name = None).
    { rewrite R4. unfold cache_get in Eg. now destruct (cache (app w who) !! name). }
    destruct (Hprime v _ Hn) as (P1 & P2 & P3 & P4 & P5).
    split; [intros who'; destruct (P1 who'), (R1 who'); split; congruence|].
    split; [congruence|].
    split; [intros who' Hw; rewrite P3, R3 by exact Hw; reflexivity|].
    split; [now rewrite <- R4 | now rewrite P5].
  - rewrite (render_miss _ _ _ _ _ (or_introl Ec)). cbv zeta. rewrite Ec.
    destruct (View fs name _ _ _) as [regs made] eqn:Ev.
    destruct (Hreg regs (View_regs _ _ _ _ _ _ _ Ev)) as (R1 & R2 & R3 & R4 & R5).
    destruct made as [tr [v|err]]; [|cbn [r_world]; rewrite R4; auto].
    destruct (negb (truthy_str (v_path v))); cbn [r_world]; rewrite R4; auto.
Qed.

(** X28: With caching in effect, a view name that is a member of
    [Object.prototype], such as "constructor" or "toString", and is not
    in the render cache is taken for cached: [cache[name]] gives the
    inherited function, no view is made, and the callback gets the
    TypeError of calling its missing [render]. *)
Theorem render_inherited_name fs w who name args :
  caching w who args = true ->
  in_object_prototype name = true ->
  cache (app w who) !! name = None ->
  let r := render fs w who name args in
  r_views_made r = 0%nat
  /\ r_world r = w
  /\ r_run r = args_done args (CbErr (TypeError "view.render is not a function")).
Proof.
  intros Hc Hp Hn. cbv zeta. unfold render. unfold caching in Hc. rewrite Hc.
  unfold cache_get. rewrite Hn, Hp. cbn [orb r_views_made r_world r_run].
  split; [reflexivity|]. split; [reflexivity|].
  unfold tryRender, entry_render, try_catch, throwR.
  now destruct (args_done args _).
Qed.

End ViewFacts.

(** X21, an instance: the view "home" with the default engine "pug". *)
Lemma View_default_engine_witness :
  fst (View ex_extname ex_dirname ex_basename ex_basename_ext ex_join2 ex_join3
         ex_resolve ex_require_pug ex_ToString
         fs_none "home" (VStr "pug") (VStr "/srv/views") (fun _ => None))
  = fst (View ex_extname ex_dirname ex_basename ex_basename_ext ex_join2 ex_join3
           ex_resolve ex_require_pug ex_ToString
           fs_none "home" (VStr ".pug") (VStr "/srv/views") (fun _ => None)).
Proof.
  refine (proj1 (View_default_engine ex_extname ex_dirname ex_basename ex_basename_ext
                   ex_join2 ex_join3 ex_resolve ex_require_pug ex_ToString
                   fs_none "home" "pug" (VStr "/srv/views") (fun _ => None) eq_refl _)).
  discriminate.
Defined.


(** X23, an instance: the engine of [dev_app], registered for "html". *)
Lemma engine_registered_witness :
  engines_lookup dev_app Sub ".html" = Some path_engine
  /\ engine Sub ".html" path_engine two_apps = dev_app.
Proof.
  pose proof (engine_registered ex_extname ex_dirname ex_basename ex_basename_ext
                ex_join2 ex_join3 ex_resolve ex_require ex_ToString
                Sub "html" path_engine two_apps) as (H1 & _ & H3 & _).
  split; [exact H1 | exact H3].
Defined.



(** X28, an instance: the view name "constructor" in the production environment. *)
Lemma render_inherited_name_witness :
  r_views_made (ex_render fs_none prod_app Sub "constructor" (CallbackOnly log_cb))
  = 0%nat
  /\ r_world (ex_render fs_none prod_app Sub "constructor" (CallbackOnly log_cb))
     = prod_app
  /\ r_run (ex_render fs_none prod_app Sub "constructor" (CallbackOnly log_cb))
     = log_cb (CbErr (TypeError "view.render is not a function")).
Proof.
  refine (render_inherited_name ex_extname ex_dirname ex_basename ex_basename_ext
            ex_join2 ex_join3 ex_resolve ex_require ex_ToString
            fs_none prod_app Sub "constructor" (CallbackOnly log_cb) _ eq_refl _);
    vm_compute; reflexivity.
Defined.

End Application.

(* ===================================================================== *)
(** * lib/request.js: [req.param] *)
(* ===================================================================== *)

Module RequestParam.
Import JS Application.
Local Open Scope js_scope.









(** ** Example objects *)


(** ** Properties *)





End RequestParam.

(* ===================================================================== *)
(** * The requests of an application *)
(* ===================================================================== *)

Module Express.
Import JS Utils Application.

(** A setting read as an integer. *)
Definition as_integer (v : jsval) : option Z :=
  match v with
  | VNum (Fin q) =>
      if Z.rem (Qnum q) (Zpos (Qden q)) =? 0
      then Some (Qnum q / Zpos (Qden q)) else None
  | _ => None
  end.

(** What the getters of a request read from its application:
    [this.app.get('trust proxy fn')] and
    [this.app.get('subdomain offset')], when they are a trust function
    and an integer. *)
Definition request_app (w : world) (who : app_id) : option Request.app :=
  match get w who "trust proxy fn" with
  | VFun (FTrust f) =>
      match as_integer (get w who "subdomain offset") with
      | Some n => Some {| Request.trust_proxy_fn := f; Request.subdomain_offset := n |}
      | None => None
      end
  | _ => None
  end.

(** ** Properties *)

(** X30: The "trust proxy" setting of a parent reaches the requests of a
    sub-application that is mounted in its default state: when the
    parent has been given "trust proxy" [true] before the mount, every
    request of the sub-application trusts its peer, so [protocol] is the
    first entry of a non-empty X-Forwarded-Proto and [hostname] is taken
    from a non-empty X-Forwarded-Host. *)
Theorem mounted_requests_trust_parent (pc : jsval -> outcome trust_fn)
    (env views : string) (w00 w0 w1 : world) (this : Request.request) :
  init pc env views Sub w00 = (w0, Ret tt) ->
  set pc Parent "trust proxy" (VBool true) w0 = (w1, Ret tt) ->
  request_app (onmount w1) Sub = Some (Request.req_app this) ->
  Request.peer_trusted this = true
  /\ (forall h, Request.headers this !! "x-forwarded-proto" = Some h -> h <> "" ->
        Request.protocol this = Ret (trim (before "," h)))
  /\ (forall h, Request.headers this !! "x-forwarded-host" = Some h -> h <> "" ->
        Request.chosen_host this
        = Some (if contains "," h then trimRight (before "," h) else h)).
Proof.
  intros Hi Hs Ha.
  assert (Hm0 : marker_is w0 true) by (now apply (init_marker pc env views w00)).
  assert (Hm1 : marker_is w1 true).
  { pose proof (step_default pc (OpSet Parent "trust proxy" (VBool true)) w0) as H.
    cbn [step] in H. rewrite Hs in H. apply H; [|exact Hm0].
    cbn. tauto. }
  assert (Hp : get w1 Parent "trust proxy fn" = VFun (FTrust (fun _ _ => true))).
  { destruct (set_trust_proxy_own pc Parent (VBool true) w0 w1 Hs) as [_ [p Hp]].
    unfold get, get_value, get_prop. unfold own in Hp. cbn [app] in Hp. rewrite Hp.
    cbn [or_prop]. revert Hs Hp. unfold set, bindS, lift, ret.
    destruct (assign Parent "trust proxy" (VBool true) w0) as [wa [[]|e]];
      [|discriminate].
    cbn [String.eqb Ascii.eqb Bool.eqb compileTrust].
    pose proof (assign_stores Parent "trust proxy fn"
                  (VFun (FTrust (fun _ _ => true))) wa) as St.
    destruct (assign Parent "trust proxy fn" _ wa) as [wb [[]|e]]; [|discriminate].
    specialize (St wb eq_refl). intros Hd Hp.
    pose proof (defineProperty_frame Parent trustProxyDefaultSymbol (VBool false) wb
                  Parent "trust proxy fn") as F.
    rewrite Hd in F. cbn [fst] in F. unfold own in F, St. cbn [app] in F, St.
    rewrite F, St in Hp by (right; discriminate). now injection Hp as <-. }
  destruct (onmount_default w1 _ Hm1 Hp) as (Hinh & Hpar & Hanc).
  destruct (inherits_get _ Hinh) as [Hg _].
  assert (Hsub : get (onmount w1) Sub "trust proxy fn"
                 = VFun (FTrust (fun _ _ => true))).
  { rewrite Hg, <- Hp. unfold get, get_value, get_prop. now rewrite Hpar, Hanc. }
  unfold request_app in Ha. rewrite Hsub in Ha.
  destruct (as_integer _) as [n|]; [|discriminate]. injection Ha as Ha.
  assert (Ht : Request.peer_trusted this = true).
  { unfold Request.peer_trusted. now rewrite <- Ha. }
  split; [exact Ht|]. split.
  - intros h Hh Hne. rewrite Request.protocol_eq, Ht, Hh.
    destruct (String.eqb_spec h ""); [contradiction | reflexivity].
  - intros h Hh Hne. unfold Request.chosen_host. rewrite Hh, Ht.
    destruct (String.eqb_spec h ""); [contradiction | reflexivity].
Qed.

(** X30, an instance: a request that carries X-Forwarded-Proto, on the mounted
    sub-application. *)
Lemma mounted_requests_trust_parent_witness :
  Request.peer_trusted Request.req_trusted_proto = true
  /\ Request.protocol Request.req_trusted_proto = Ret "https".
Proof.
  assert (Hi : init listed_compile "development" "/srv/views" Sub
                 (fst (init listed_compile "development" "/srv/views" Parent
                         empty_world))
               = (fst (init listed_compile "development" "/srv/views" Sub
                         (fst (init listed_compile "development" "/srv/views" Parent
                                 empty_world))), Ret tt))
    by (vm_compute; reflexivity).
  assert (Hs : set listed_compile Parent "trust proxy" (VBool true)
                 (fst (init listed_compile "development" "/srv/views" Sub
                         (fst (init listed_compile "development" "/srv/views" Parent
                                 empty_world))))
               = (fst (set listed_compile Parent "trust proxy" (VBool true)
                         (fst (init listed_compile "development" "/srv/views" Sub
                                 (fst (init listed_compile "development" "/srv/views"
                                         Parent empty_world))))), Ret tt))
    by (vm_compute; reflexivity).
  pose proof (mounted_requests_trust_parent listed_compile "development" "/srv/views"
                _ _ _ Request.req_trusted_proto Hi Hs) as H.
  destruct H as (H1 & H2 & _); [vm_compute; reflexivity|].
  split; [exact H1|].
  exact (H2 "https, http" eq_refl ltac:(discriminate)).
Defined.

End Express.
